(** * FASTA reader and writer (package [fasta], file [fasta.go])

    A shallow embedding of the Go package: the [Record] type, the streaming
    [Reader] with its [Read] method, and the [Writer] with [NewWriter] and
    [Write].  Byte slices and Go strings are lists of bytes; Go's [int] is
    [Z]; a nil pointer is [None]; a run-time panic is an explicit result. *)

From Stdlib Require Import Strings.Byte Strings.String.
From Stdlib Require Import List ZArith NArith Lia Bool Arith.
Import ListNotations.

Local Open Scope string_scope.
Local Open Scope list_scope.

(** ** Bytes *)

Abbreviation bytes := (list byte).

(** A byte-slice literal, written as a Rocq string. *)
Definition bs (s : string) : bytes := list_byte_of_string s.

Definition newline : byte := x0a.   (* '\n' *)
Definition marker : byte := x3e.    (* '>'  *)

(** ** The standard library's [bytes.TrimSpace]

    [bytes.TrimSpace] removes leading and trailing white space "as defined by
    Unicode" from a UTF-8 encoded slice: it is [TrimFunc(s, unicode.IsSpace)]
    with an ASCII fast path.  [unicode.IsSpace] holds of U+0009..U+000D,
    U+0020, U+0085, U+00A0, U+1680, U+2000..U+200A, U+2028, U+2029, U+202F,
    U+205F and U+3000.  [utf8.DecodeRune] and [utf8.DecodeLastRune] yield one
    of these code points exactly on its (shortest) UTF-8 encoding, so trimming
    removes the following byte sequences from both ends. *)

(** The table [asciiSpace]: '\t', '\n', '\v', '\f', '\r', ' '. *)
Definition asciiSpace (c : byte) : bool :=
  let n := Byte.to_N c in
  ((9 <=? n) && (n <=? 13) || (n =? 32))%N.

(** Two-byte encodings: U+0085 is C2 85, U+00A0 is C2 A0. *)
Definition isSpace2 (c1 c2 : byte) : bool :=
  let n1 := Byte.to_N c1 in
  let n2 := Byte.to_N c2 in
  ((n1 =? 194) && ((n2 =? 133) || (n2 =? 160)))%N.

(** Three-byte encodings: U+1680 is E1 9A 80; U+2000..U+200A are
    E2 80 80..8A; U+2028, U+2029, U+202F are E2 80 A8, A9, AF;
    U+205F is E2 81 9F; U+3000 is E3 80 80. *)
Definition isSpace3 (c1 c2 c3 : byte) : bool :=
  let n1 := Byte.to_N c1 in
  let n2 := Byte.to_N c2 in
  let n3 := Byte.to_N c3 in
  ((n1 =? 225) && (n2 =? 154) && (n3 =? 128)
   || (n1 =? 226) && (n2 =? 128)
        && ((128 <=? n3) && (n3 <=? 138) || (n3 =? 168) || (n3 =? 169) || (n3 =? 175))
   || (n1 =? 226) && (n2 =? 129) && (n3 =? 159)
   || (n1 =? 227) && (n2 =? 128) && (n3 =? 128))%N.

Section Trim.

(** Which one-, two- and three-byte sequences encode a white-space rune,
    read in the direction of trimming. *)
Variable sp1 : byte -> bool.
Variable sp2 : byte -> byte -> bool.
Variable sp3 : byte -> byte -> byte -> bool.

(** Drop white-space runes from the front until a rune that is not one. *)
Fixpoint trimStart (s : bytes) : bytes :=
  match s with
  | [] => []
  | c1 :: t1 =>
      if sp1 c1 then trimStart t1
      else
        match t1 with
        | [] => s
        | c2 :: t2 =>
            if sp2 c1 c2 then trimStart t2
            else
              match t2 with
              | [] => s
              | c3 :: t3 => if sp3 c1 c2 c3 then trimStart t3 else s
              end
        end
  end.

End Trim.

(** [bytes.TrimLeftFunc(s, unicode.IsSpace)]. *)
Definition TrimLeftSpace (s : bytes) : bytes :=
  trimStart asciiSpace isSpace2 isSpace3 s.

(** [bytes.TrimRightFunc(s, unicode.IsSpace)]: the same scan from the end,
    each encoding read backwards. *)
Definition TrimRightSpace (s : bytes) : bytes :=
  rev (trimStart asciiSpace
         (fun c2 c1 => isSpace2 c1 c2)
         (fun c3 c2 c1 => isSpace3 c1 c2 c3)
         (rev s)).

Definition TrimSpace (s : bytes) : bytes :=
  TrimRightSpace (TrimLeftSpace s).

(** ** Errors *)

Inductive error : Type :=
| io_EOF                       (* the sentinel io.EOF *)
| errors_New (msg : string)    (* errors.New(msg) *)
| io_failure (msg : string).   (* any other error of the underlying stream *)

Definition is_EOF (e : option error) : bool :=
  match e with
  | Some io_EOF => true
  | _ => false
  end.

(** ** The input stream: a [bufio.Reader] over the caller's [io.Reader]

    The stream is the bytes not yet consumed, and the error the underlying
    reader reports once they are exhausted ([io_EOF] for a file or a
    [strings.Reader]); that error is reported again on every later read. *)

Record bufio_Reader : Type := {
  pending : bytes;
  final : error
}.

(** Split at the first occurrence of [delim]; the first part includes it. *)
Fixpoint splitAfter (delim : byte) (s : bytes) : option (bytes * bytes) :=
  match s with
  | [] => None
  | c :: t =>
      if Byte.eqb c delim then Some ([c], t)
      else
        match splitAfter delim t with
        | Some (line, rest) => Some (c :: line, rest)
        | None => None
        end
  end.

(** [ReadBytes(delim)]: the bytes up to and including the first [delim];
    when the stream ends before a [delim], the bytes read so far and the
    stream's error. *)
Definition ReadBytes (b : bufio_Reader) (delim : byte)
  : bytes * option error * bufio_Reader :=
  match splitAfter delim (pending b) with
  | Some (line, rest) => (line, None, {| pending := rest; final := final b |})
  | None => (pending b, Some (final b), {| pending := []; final := final b |})
  end.

(** ** Records *)

Record Record_ : Type := {
  Header : bytes;
  Sequence : bytes
}.

(** The interface [Sequence]: anything with a name and residues. *)
Class SequenceI (A : Type) : Type := {
  Name : A -> bytes;
  Seq : A -> bytes
}.

#[export] Instance Record_SequenceI : SequenceI Record_ := {
  Name := Header;
  Seq := Sequence
}.

(** ** Reader *)

Record Reader : Type := {
  r : bufio_Reader;
  err : option error;
  rec : option Record_     (* *Record, nil before the first header *)
}.

Definition NewReader (f : bufio_Reader) : Reader :=
  {| r := f; err := None; rec := None |}.

(** What a call of [Read] does: return a (possibly nil) record and a
    (possibly nil) error, or panic on a nil pointer dereference. *)
Inductive result : Type :=
| Return (record : option Record_) (e : option error)
| Panic.

Definition format_error : error :=
  errors_New "fasta: format error: sequence before header".

(** [r.rec.Sequence = append(r.rec.Sequence, line...)] on a non-nil record. *)
Definition appendSeq (rc : Record_) (line : bytes) : Record_ :=
  {| Header := Header rc; Sequence := Sequence rc ++ line |}.

(** One iteration of the [for] loop of [Read]: either the call returns
    (or panics), or the loop goes round again. *)
Inductive iteration : Type :=
| Done (rd : Reader) (res : result)
| Continue (rd : Reader).

Definition Read_iter (rd : Reader) : iteration :=
  let '(line, e, br) := ReadBytes (r rd) newline in
  match e with
  | Some e' =>
      if is_EOF e then
        (* If no newline at end of file. *)
        if (0 <? length line)%nat then
          match rec rd with
          | None => (* r.rec.Sequence on a nil r.rec *)
              Done {| r := br; err := err rd; rec := None |} Panic
          | Some rc =>
              let rc' := appendSeq rc line in
              Done {| r := br; err := Some io_EOF; rec := Some rc' |}
                   (Return (Some rc') None)
          end
        else
          Done {| r := br; err := Some io_EOF; rec := rec rd |}
               (Return (rec rd) None)
      else
        Done {| r := br; err := err rd; rec := rec rd |} (Return None (Some e'))
  | None =>
      let line := TrimSpace line in
      match line with
      | [] => (* Skip empty lines. *)
          Continue {| r := br; err := err rd; rec := rec rd |}
      | c :: name =>
          if negb (Byte.eqb c marker) then
            match rec rd with
            | None => (* reached sequence before the first header. *)
                Done {| r := br; err := err rd; rec := None |}
                     (Return None (Some format_error))
            | Some rc =>
                Continue {| r := br; err := err rd;
                            rec := Some (appendSeq rc line) |}
            end
          else
            let temp := rec rd in
            let rd' := {| r := br; err := err rd;
                          rec := Some {| Header := name; Sequence := [] |} |} in
            match temp with
            | Some t => Done rd' (Return (Some t) None)
            | None => Continue rd'
            end
      end
  end.

(** The loop.  An iteration that goes round again has consumed a line of at
    least one byte, so [fuel] above the number of pending bytes is never
    exhausted ([Read_loop_total]). *)
Fixpoint Read_loop (fuel : nat) (rd : Reader) : option (Reader * result) :=
  match fuel with
  | O => None
  | S fuel' =>
      match Read_iter rd with
      | Done rd' res => Some (rd', res)
      | Continue rd' => Read_loop fuel' rd'
      end
  end.

(** [Reader.Read]. *)
Definition Read (rd : Reader) : Reader * result :=
  (* Keep returning EOF after EOF reached. *)
  if is_EOF (err rd) then (rd, Return None (Some io_EOF))
  else
    match Read_loop (S (length (pending (r rd)))) rd with
    | Some out => out
    | None => (rd, Panic)   (* never taken: [Read_loop_total] *)
    end.

(** [n] successive calls of [Read]; a panic ends the program. *)
Fixpoint Reads (n : nat) (rd : Reader) : list result :=
  match n with
  | O => []
  | S n' =>
      let '(rd', res) := Read rd in
      res :: match res with
             | Panic => []
             | Return _ _ => Reads n' rd'
             end
  end.

(** The records among the results of successive calls. *)
Fixpoint records_of (l : list result) : list Record_ :=
  match l with
  | [] => []
  | Return (Some rc) _ :: l' => rc :: records_of l'
  | _ :: l' => records_of l'
  end.

(** A stream over an in-memory string, as [strings.NewReader]: it ends in
    [io.EOF]. *)
Definition strings_NewReader (s : bytes) : bufio_Reader :=
  {| pending := s; final := io_EOF |}.

(** ** Writer *)

(** The output sink, an [io.Writer]: the bytes written so far and how many
    more bytes it accepts ([None]: any number, as a [bytes.Buffer]); a write
    that does not fit is cut short and reports an error. *)
Record io_Writer : Type := {
  written : bytes;
  room : option nat
}.

Definition bytes_Buffer : io_Writer := {| written := []; room := None |}.

Definition short_write : error := io_failure "short write".

Definition io_Write (k : io_Writer) (p : bytes) : io_Writer * Z * option error :=
  match room k with
  | None => ({| written := written k ++ p; room := None |},
             Z.of_nat (length p), None)
  | Some m =>
      if (length p <=? m)%nat then
        ({| written := written k ++ p; room := Some (m - length p)%nat |},
         Z.of_nat (length p), None)
      else
        ({| written := written k ++ firstn m p; room := Some 0%nat |},
         Z.of_nat m, Some short_write)
  end.

Record Writer : Type := {
  w : io_Writer;
  width : Z
}.

Definition NewWriter (k : io_Writer) (width0 : Z) : Writer :=
  {| w := k; width := if (width0 =? 0)%Z then 1%Z else width0 |}.

(** What a call of [Write] does: return a byte count and a (possibly nil)
    error, or panic on [i % 0]. *)
Inductive wresult : Type :=
| WReturn (n : Z) (e : option error)
| WPanic.

(** The loop [for i := 0; i < len(s.Seq()); i++] from index [i] on, [rest]
    being [s.Seq()[i:]] and [n] the bytes written so far.  Go's [%] is the
    truncated remainder, [Z.rem]. *)
Fixpoint Write_loop (wd : Z) (i : Z) (rest : bytes) (k : io_Writer) (n : Z)
  : io_Writer * wresult :=
  match rest with
  | [] =>
      let '(k1, _n, e) := io_Write k [newline] in
      (k1, WReturn (n + _n) e)
  | c :: rest' =>
      if (wd =? 0)%Z then (k, WPanic)   (* integer divide by zero *)
      else
        let '(k1, n1, e1) :=
          if (Z.rem i wd =? 0)%Z then
            let '(k', _n, e) := io_Write k [newline] in (k', (n + _n)%Z, e)
          else (k, n, None) in
        match e1 with
        | Some _ => (k1, WReturn n1 e1)
        | None =>
            let '(k2, _n, e2) := io_Write k1 [c] in
            match e2 with
            | Some _ => (k2, WReturn (n1 + _n) e2)
            | None => Write_loop wd (i + 1) rest' k2 (n1 + _n)
            end
        end
  end.

(** [Writer.Write]. *)
Definition Write {A : Type} `{SequenceI A} (wr : Writer) (s : A)
  : Writer * wresult :=
  (* Write the header. *)
  let '(k0, n, e) := io_Write (w wr) (marker :: Name s) in
  match e with
  | Some _ => ({| w := k0; width := width wr |}, WReturn n e)
  | None =>
      (* Write the sequence (width letters at each line). *)
      let '(k1, res) := Write_loop (width wr) 0 (Seq s) k0 n in
      ({| w := k1; width := width wr |}, res)
  end.

(** * Definitions for the statements *)

Definition low (c : byte) : Prop := (Byte.to_N c < 128)%N.
Definition high (c : byte) : Prop := (128 <= Byte.to_N c)%N.

(** A reader in the middle of its stream: [s] is still to come, then the
    stream's error [f]; [rc] is the record in progress. *)
Definition reading (f : error) (s : bytes) (rc : option Record_) : Reader :=
  {| r := {| pending := s; final := f |}; err := None; rec := rc |}.

(** The reader that has reached the end of its input. *)
Definition ended (rc : option Record_) : Reader :=
  {| r := strings_NewReader []; err := Some io_EOF; rec := rc |}.

(** Kinds of line, decided on the trimmed line as [Read] does. *)
Definition isBlank (l : bytes) : bool :=
  match TrimSpace l with
  | [] => true
  | _ :: _ => false
  end.

Definition isHeader (l : bytes) : bool :=
  match TrimSpace l with
  | [] => false
  | c :: _ => Byte.eqb c marker
  end.

Definition isData (l : bytes) : bool :=
  match TrimSpace l with
  | [] => false
  | c :: _ => negb (Byte.eqb c marker)
  end.

(** The name a header line gives: the trimmed line without the marker. *)
Definition headerName (l : bytes) : bytes := tl (TrimSpace l).

(** Lines, each with its line-break. *)
Definition unlines (ls : list bytes) : bytes :=
  flat_map (fun l => l ++ [newline]) ls.

(** A header line and the lines up to the next header. *)
Record block : Type := {
  head : bytes;
  body : list bytes
}.

Definition renderBlock (b : block) : bytes := unlines (head b :: body b).

(** The input: blank lines, then the blocks, every line ended by a
    line-break. *)
Definition render (blanks : list bytes) (blocks : list block) : bytes :=
  unlines blanks ++ flat_map renderBlock blocks.

(** No line holds a line-break; the lines before the first header are
    blank; a block starts with a header line, and none of the lines after it
    is one (they are data lines or blank lines). *)
Definition wf_blanks (blanks : list bytes) : Prop :=
  Forall (fun l => ~ In newline l /\ isBlank l = true) blanks.

Definition wf_body (ls : list bytes) : Prop :=
  Forall (fun l => ~ In newline l /\ isHeader l = false) ls.

Definition wf_block (b : block) : Prop :=
  ~ In newline (head b) /\ isHeader (head b) = true /\ wf_body (body b).

(** The record of a block: the header's name, and the trimmed lines of the
    body one after the other. *)
Definition recordOf (b : block) : Record_ :=
  {| Header := headerName (head b);
     Sequence := concat (map TrimSpace (body b)) |}.

Definition returned (x : Record_) : result := Return (Some x) None.
Definition at_EOF : result := Return None (Some io_EOF).

(** Wrapping as the format describes it: a line-break right before the
    byte at position [i] whenever [i mod width = 0]; [j] is the position of
    the first byte of [data]. *)
Definition wrap_from (wd : Z) (j : nat) (data : bytes) : bytes :=
  flat_map
    (fun '(i, c) => if (Z.of_nat i mod wd =? 0)%Z then [newline; c] else [c])
    (combine (seq j (length data)) data).

Definition wrap_spec (wd : Z) (data : bytes) : bytes := wrap_from wd 0 data.

(** A sink without a limit, holding [pre]. *)
Definition buffer (pre : bytes) : io_Writer :=
  {| written := pre; room := None |}.

(** Text given line by line, as in the package's tests. *)
Definition text (ls : list string) : bytes := unlines (map bs ls).

Definition Seq1 : Record_ := {| Header := bs "Seq1"; Sequence := bs "AAABBB" |}.

(** The reader after [n] calls of [Read]. *)
Fixpoint after (n : nat) (rd : Reader) : Reader :=
  match n with
  | O => rd
  | S n' => after n' (fst (Read rd))
  end.

(** The lines of an input made of blank lines and blocks. *)
Definition allLines (blanks : list bytes) (blocks : list block) : list bytes :=
  blanks ++ flat_map (fun b => head b :: body b) blocks.

(** An input cut at its line-breaks: the lines that end in one, without it,
    and the bytes after the last line-break. *)
Fixpoint splitLines (s : bytes) : list bytes * bytes :=
  match s with
  | [] => ([], [])
  | c :: t =>
      let (ls, tl) := splitLines t in
      if Byte.eqb c newline then ([] :: ls, tl)
      else
        match ls with
        | [] => ([], c :: tl)
        | l :: ls' => ((c :: l) :: ls', tl)
        end
  end.

Definition lines (s : bytes) : list bytes := fst (splitLines s).
Definition unterminated (s : bytes) : bytes := snd (splitLines s).

(** Lines grouped by header: the lines before the first header line, and
    one block for each header line with the lines up to the next. *)
Fixpoint group (ls : list bytes) : list bytes * list block :=
  match ls with
  | [] => ([], [])
  | l :: ls' =>
      let (pre, bl) := group ls' in
      if isHeader l then ([], {| head := l; body := pre |} :: bl)
      else (l :: pre, bl)
  end.

Definition blocks_of (s : bytes) : list block := snd (group (lines s)).

(** A well-formed input: every line ends in a line-break, and the lines
    before the first header line are blank. *)
Definition well_formed_input (s : bytes) : Prop :=
  unterminated s = []
  /\ Forall (fun l => isBlank l = true) (fst (group (lines s))).

(** The results of [n] calls of [Read] on what [Write] put into an empty
    buffer at width [W]. *)
Definition decode_encoded (W : Z) (rc : Record_) (n : nat) : list result :=
  Reads n (NewReader (strings_NewReader
             (written (w (fst (Write (NewWriter bytes_Buffer W) rc)))))).

(** The block that [Write] produces for a record, when the data fits on one
    line. *)
Definition blockOf (rc : Record_) : block :=
  {| head := marker :: Header rc;
     body := match Sequence rc with
             | [] => []
             | _ :: _ => [Sequence rc]
             end |}.

(** What holds of every record the reader builds: no line-break in the
    name, no white space at its end, no line-break in the data. *)
Definition well_formed (x : Record_) : Prop :=
  ~ In newline (Header x)
  /\ TrimRightSpace (Header x) = Header x
  /\ ~ In newline (Sequence x).

Definition rec_well_formed (rc : option Record_) : Prop :=
  match rc with
  | Some x => well_formed x
  | None => True
  end.

Definition result_well_formed (res : result) : Prop :=
  match res with
  | Return rc _ => rec_well_formed rc
  | Panic => True
  end.

(** * Definitions for further properties *)

(** The loop of [ExampleReader] and of the README: read until [io.EOF],
    stop at any other error, print name and residues of each record, each
    on a line of its own. *)
Inductive ending : Type :=
| Finished                 (* break on io.EOF *)
| Fatal (e : error)        (* log.Fatal(err) *)
| Crashed                  (* a panic, in Read or on a nil record *)
| Unfinished.              (* the loop has not come to an end yet *)

Fixpoint ExampleReader (fuel : nat) (rd : Reader) (out : bytes)
  : bytes * ending :=
  match fuel with
  | O => (out, Unfinished)
  | S fuel' =>
      match Read rd with
      | (_, Panic) => (out, Crashed)
      | (rd', Return record e) =>
          if is_EOF e then (out, Finished)
          else
            match e with
            | Some e' => (out, Fatal e')
            | None =>
                match record with
                | None => (out, Crashed)   (* record.Name() on nil *)
                | Some x =>
                    ExampleReader fuel' rd'
                      (out ++ Name x ++ [newline] ++ Seq x ++ [newline])
                end
            end
      end
  end.

(** The loop has come to an end. *)
Definition stopped (e : ending) : bool :=
  match e with
  | Unfinished => false
  | Finished | Fatal _ | Crashed => true
  end.

(** The loop of [TestWrite]: write the records one after the other, stop
    at the first error; the count is the total of the counts returned. *)
Fixpoint WriteAll {A : Type} `{SequenceI A} (wr : Writer) (recs : list A)
    (total : Z) : Writer * wresult :=
  match recs with
  | [] => (wr, WReturn total None)
  | s :: recs' =>
      match Write wr s with
      | (wr', WPanic) => (wr', WPanic)
      | (wr', WReturn n e) =>
          match e with
          | Some _ => (wr', WReturn (total + n) e)
          | None => WriteAll wr' recs' (total + n)
          end
      end
  end.

(** A sink with room for [m] more bytes. *)
Definition limited (pre : bytes) (m : nat) : io_Writer :=
  {| written := pre; room := Some m |}.

(** All that [Write] emits for a sequence at line width [wd]. *)
Definition encoding {A : Type} `{SequenceI A} (wd : Z) (s : A) : bytes :=
  marker :: Name s ++ wrap_spec wd (Seq s) ++ [newline].

(** A slice cut into pieces of [n] bytes, the last one possibly shorter. *)
Fixpoint chunks_fuel (fuel n : nat) (data : bytes) : list bytes :=
  match fuel with
  | O => []
  | S fuel' =>
      match data with
      | [] => []
      | _ :: _ => firstn n data :: chunks_fuel fuel' n (skipn n data)
      end
  end.

Definition chunks (n : nat) (data : bytes) : list bytes :=
  chunks_fuel (length data) n data.

(** An ASCII byte that is neither white space nor the marker, as the
    letters of a residue alphabet are. *)
Definition plainb (c : byte) : bool :=
  (Byte.to_N c <? 128)%N && negb (asciiSpace c) && negb (Byte.eqb c marker).

Definition plain (s : bytes) : Prop := Forall (fun c => plainb c = true) s.

(** A name that survives a header line: no line-break, no white space at
    its end. *)
Definition clean_name (name : bytes) : Prop :=
  ~ In newline name /\ TrimRightSpace name = name.

(** The result that returns the stream's error [e] and no record. *)
Definition failed (e : error) : result := Return None (Some e).

(** A sink with room for [m] bytes after an attempt to write [out] to it
    byte by byte, [n0] bytes having been counted before: all of [out] if it
    fits, else its first [m] bytes and the error. *)
Definition sink_after (pre out : bytes) (m : nat) (n0 : Z)
  : io_Writer * wresult :=
  if (length out <=? m)%nat then
    (limited (pre ++ out) (m - length out),
     WReturn (n0 + Z.of_nat (length out)) None)
  else
    (limited (pre ++ firstn m out) 0,
     WReturn (n0 + Z.of_nat m) (Some short_write)).

(** The block that [Write] produces for a record at line width [n]. *)
Definition blockAt (n : nat) (rc : Record_) : block :=
  {| head := marker :: Header rc; body := chunks n (Sequence rc) |}.

(** The call of [Read] on a reader comes to the end of the input: in some
    iteration of its loop, this one or one after lines that make the loop go
    round again, [ReadBytes] returns [io.EOF]. *)
Inductive reaches_end : Reader -> Prop :=
| end_here (rd : Reader) (line : bytes) (br : bufio_Reader) :
    ReadBytes (r rd) newline = (line, Some io_EOF, br) -> reaches_end rd
| end_later (rd rd' : Reader) :
    Read_iter rd = Continue rd' -> reaches_end rd' -> reaches_end rd.


(** * Facts about trimming *)

Section TrimFacts.

Variable sp1 : byte -> bool.
Variable sp2 : byte -> byte -> bool.
Variable sp3 : byte -> byte -> byte -> bool.

(** The multi-byte encodings consist of non-ASCII bytes only. *)
Hypothesis sp2_high : forall a b, sp2 a b = true -> high a /\ high b.
Hypothesis sp3_high :
  forall a b c, sp3 a b c = true -> high a /\ high b /\ high c.

Local Abbreviation trim := (trimStart sp1 sp2 sp3).

Lemma sp2_low_l a b : low a -> sp2 a b = false.
Proof.
  intros La. destruct (sp2 a b) eqn:E; [|reflexivity].
  apply sp2_high in E. unfold low, high in *. lia.
Qed.

Lemma sp2_low_r a b : low b -> sp2 a b = false.
Proof.
  intros Lb. destruct (sp2 a b) eqn:E; [|reflexivity].
  apply sp2_high in E. unfold low, high in *. lia.
Qed.

Lemma sp3_low_l a b c : low a -> sp3 a b c = false.
Proof.
  intros La. destruct (sp3 a b c) eqn:E; [|reflexivity].
  apply sp3_high in E. unfold low, high in *. lia.
Qed.

Lemma sp3_low_r a b c : low c -> sp3 a b c = false.
Proof.
  intros Lc. destruct (sp3 a b c) eqn:E; [|reflexivity].
  apply sp3_high in E. unfold low, high in *. lia.
Qed.

(** Induction on a slice that may step over one, two or three bytes. *)
Lemma bytes_ind3 (P : bytes -> Prop) :
  P [] ->
  (forall c1 t, P t ->
                (forall c2 t2, t = c2 :: t2 -> P t2) ->
                (forall c2 c3 t3, t = c2 :: c3 :: t3 -> P t3) ->
                P (c1 :: t)) ->
  forall s, P s.
Proof.
  intros H0 HS s.
  assert (G : forall n (u : bytes), (length u <= n)%nat -> P u).
  { induction n as [|n IH]; intros u Hu.
    - destruct u; [exact H0 | simpl in Hu; lia].
    - destruct u as [|c1 t]; [exact H0|]. simpl in Hu.
      apply HS.
      + apply IH. lia.
      + intros c2 t2 ->. apply IH. simpl in Hu. lia.
      + intros c2 c3 t3 ->. apply IH. simpl in Hu. lia. }
  apply (G (length s)). lia.
Qed.

(** Trimming keeps a suffix. *)
Lemma trimStart_suffix s : exists p, s = p ++ trim s.
Proof.
  induction s as [|c1 t IH1 IH2 IH3] using bytes_ind3.
  - exists []. reflexivity.
  - simpl. destruct (sp1 c1).
    + destruct IH1 as [p Hp]. exists (c1 :: p). simpl. congruence.
    + destruct t as [|c2 t2]; [exists []; reflexivity|].
      destruct (sp2 c1 c2).
      * destruct (IH2 c2 t2 eq_refl) as [p Hp].
        exists (c1 :: c2 :: p). simpl. congruence.
      * destruct t2 as [|c3 t3]; [exists []; reflexivity|].
        destruct (sp3 c1 c2 c3); [|exists []; reflexivity].
        destruct (IH3 c2 c3 t3 eq_refl) as [p Hp].
        exists (c1 :: c2 :: c3 :: p). simpl. congruence.
Qed.

(** A slice that starts with an ASCII byte other than white space is
    left as it is. *)
Lemma trimStart_low_head c t :
  low c -> sp1 c = false -> trim (c :: t) = c :: t.
Proof.
  intros Lc Hc. simpl. rewrite Hc.
  destruct t as [|c2 t2]; [reflexivity|].
  rewrite (sp2_low_l c c2 Lc).
  destruct t2 as [|c3 t3]; [reflexivity|].
  rewrite (sp3_low_l c c2 c3 Lc). reflexivity.
Qed.

(** Appending one ASCII byte: it cannot complete an encoding, so it
    is trimmed only if everything before it is. *)
Lemma trimStart_app_low s b :
  low b ->
  trim (s ++ [b]) = match trim s with
                    | [] => trim [b]
                    | _ :: _ => trim s ++ [b]
                    end.
Proof.
  intros Lb.
  induction s as [|c1 t IH1 IH2 IH3] using bytes_ind3.
  - reflexivity.
  - simpl. destruct (sp1 c1) eqn:E1.
    + exact IH1.
    + destruct t as [|c2 t2].
      * simpl. rewrite ?E1, (sp2_low_r c1 b Lb). reflexivity.
      * simpl. destruct (sp2 c1 c2) eqn:E2.
        -- exact (IH2 c2 t2 eq_refl).
        -- destruct t2 as [|c3 t3].
           ++ simpl. rewrite ?E1, ?E2, (sp3_low_r c1 c2 b Lb).
              reflexivity.
           ++ simpl. destruct (sp3 c1 c2 c3) eqn:E3.
              ** exact (IH3 c2 c3 t3 eq_refl).
              ** rewrite ?E1, ?E2, ?E3. reflexivity.
Qed.

End TrimFacts.

(** The encodings of the white-space runes beyond ASCII. *)
Lemma isSpace2_high a b : isSpace2 a b = true -> high a /\ high b.
Proof.
  unfold isSpace2, high.
  rewrite andb_true_iff, orb_true_iff, !N.eqb_eq. lia.
Qed.

Lemma isSpace3_high a b c :
  isSpace3 a b c = true -> high a /\ high b /\ high c.
Proof.
  unfold isSpace3, high.
  rewrite !orb_true_iff, !andb_true_iff, !orb_true_iff, !andb_true_iff,
    !N.eqb_eq, !N.leb_le.
  lia.
Qed.

Lemma isSpace2_rev_high a b :
  (fun c2 c1 => isSpace2 c1 c2) a b = true -> high a /\ high b.
Proof. intros H. apply isSpace2_high in H. tauto. Qed.

Lemma isSpace3_rev_high a b c :
  (fun c3 c2 c1 => isSpace3 c1 c2 c3) a b c = true ->
  high a /\ high b /\ high c.
Proof. intros H. apply isSpace3_high in H. tauto. Qed.

Lemma asciiSpace_low c : asciiSpace c = true -> low c.
Proof.
  unfold asciiSpace, low.
  rewrite orb_true_iff, andb_true_iff, N.eqb_eq, !N.leb_le. lia.
Qed.

Lemma low_newline : low newline.
Proof. reflexivity. Qed.

Lemma low_marker : low marker.
Proof. reflexivity. Qed.

Lemma TrimLeftSpace_incl s x : In x (TrimLeftSpace s) -> In x s.
Proof.
  intros H. destruct (trimStart_suffix asciiSpace isSpace2 isSpace3 s) as [p Hp].
  rewrite Hp. apply in_or_app. right. exact H.
Qed.

Lemma TrimRightSpace_incl s x : In x (TrimRightSpace s) -> In x s.
Proof.
  unfold TrimRightSpace. intros H. apply in_rev in H.
  destruct (trimStart_suffix asciiSpace (fun c2 c1 => isSpace2 c1 c2)
              (fun c3 c2 c1 => isSpace3 c1 c2 c3) (rev s)) as [p Hp].
  apply in_rev. rewrite Hp. apply in_or_app. right. exact H.
Qed.

Lemma TrimSpace_incl s x : In x (TrimSpace s) -> In x s.
Proof.
  intros H. apply TrimLeftSpace_incl, TrimRightSpace_incl. exact H.
Qed.

(** A slice that starts with an ASCII byte other than white space keeps
    its start. *)
Lemma TrimLeftSpace_low_head c t :
  low c -> asciiSpace c = false -> TrimLeftSpace (c :: t) = c :: t.
Proof.
  apply trimStart_low_head.
  - exact isSpace2_high.
  - exact isSpace3_high.
Qed.

(** Trailing ASCII white space goes. *)
Lemma TrimRightSpace_snoc_space s c :
  asciiSpace c = true -> TrimRightSpace (s ++ [c]) = TrimRightSpace s.
Proof.
  intros H. unfold TrimRightSpace. rewrite rev_unit. simpl. rewrite H.
  reflexivity.
Qed.

(** A leading ASCII byte other than white space survives trimming on the
    right. *)
Lemma TrimRightSpace_cons_low c s :
  low c -> asciiSpace c = false ->
  TrimRightSpace (c :: s) = c :: TrimRightSpace s.
Proof.
  intros Lc Hc. unfold TrimRightSpace. simpl rev at 2.
  rewrite (trimStart_app_low asciiSpace _ _ isSpace2_rev_high
             isSpace3_rev_high (rev s) c Lc).
  destruct (trimStart asciiSpace _ _ (rev s)) as [|y ys] eqn:E.
  - simpl. rewrite Hc. reflexivity.
  - rewrite rev_unit. reflexivity.
Qed.

(** The line-break that ends a line is trimmed with the rest. *)
Lemma TrimSpace_line l : TrimSpace (l ++ [newline]) = TrimSpace l.
Proof.
  unfold TrimSpace, TrimLeftSpace.
  rewrite (trimStart_app_low asciiSpace _ _ isSpace2_high isSpace3_high
             l newline low_newline).
  destruct (trimStart asciiSpace isSpace2 isSpace3 l) as [|y ys] eqn:E.
  - reflexivity.
  - apply TrimRightSpace_snoc_space. reflexivity.
Qed.

(** A header line whose name has no trailing white space. *)
Lemma TrimSpace_header name :
  TrimRightSpace name = name ->
  TrimSpace (marker :: name ++ [newline]) = marker :: name.
Proof.
  intros H.
  change (marker :: name ++ [newline]) with ((marker :: name) ++ [newline]).
  rewrite TrimSpace_line. unfold TrimSpace.
  rewrite TrimLeftSpace_low_head by reflexivity.
  rewrite TrimRightSpace_cons_low by reflexivity.
  rewrite H. reflexivity.
Qed.

(** * Facts about the stream *)

Lemma byte_eqb_refl c : Byte.eqb c c = true.
Proof. apply Byte.byte_dec_lb. reflexivity. Qed.

Lemma byte_eqb_neq c d : c <> d -> Byte.eqb c d = false.
Proof.
  intros H. destruct (Byte.eqb c d) eqn:E; [|reflexivity].
  apply Byte.byte_dec_bl in E. contradiction.
Qed.

(** A line and what follows it. *)
Lemma splitAfter_line d l rest :
  ~ In d l -> splitAfter d (l ++ d :: rest) = Some (l ++ [d], rest).
Proof.
  induction l as [|c l IH]; intros H; simpl.
  - rewrite byte_eqb_refl. reflexivity.
  - rewrite byte_eqb_neq by (intros ->; apply H; left; reflexivity).
    rewrite IH by (intros F; apply H; right; exact F). reflexivity.
Qed.

(** No delimiter, no line. *)
Lemma splitAfter_none d l : ~ In d l -> splitAfter d l = None.
Proof.
  induction l as [|c l IH]; intros H; simpl; [reflexivity|].
  rewrite byte_eqb_neq by (intros ->; apply H; left; reflexivity).
  rewrite IH by (intros F; apply H; right; exact F). reflexivity.
Qed.

(** What [splitAfter] returns is a line ended by the delimiter, and the
    rest of the slice. *)
Lemma splitAfter_some d s line rest :
  splitAfter d s = Some (line, rest) ->
  exists l, ~ In d l /\ line = l ++ [d] /\ s = l ++ d :: rest.
Proof.
  revert line rest. induction s as [|c s IH]; intros line rest H; simpl in H.
  - discriminate.
  - destruct (Byte.eqb c d) eqn:E.
    + apply Byte.byte_dec_bl in E. subst c. inversion H; subst.
      exists []. auto.
    + destruct (splitAfter d s) as [[line' rest']|] eqn:Es; [|discriminate].
      inversion H; subst. destruct (IH _ _ eq_refl) as (l & Hl & -> & ->).
      exists (c :: l). repeat split; try reflexivity.
      intros [F|F]; [|exact (Hl F)].
      subst c. rewrite byte_eqb_refl in E. discriminate.
Qed.

Lemma splitAfter_none_inv d s : splitAfter d s = None -> ~ In d s.
Proof.
  induction s as [|c s IH]; simpl; intros H; [tauto|].
  destruct (Byte.eqb c d) eqn:E; [discriminate|].
  destruct (splitAfter d s) as [[? ?]|]; [discriminate|].
  intros [F|F]; [|exact (IH eq_refl F)].
  subst c. rewrite byte_eqb_refl in E. discriminate.
Qed.

(** * The loop of [Read] terminates *)

(** An iteration that goes round again has consumed at least one byte, and
    has left the reader's error flag alone. *)
Lemma Read_iter_Continue rd rd' :
  Read_iter rd = Continue rd' ->
  (length (pending (r rd')) < length (pending (r rd)))%nat
  /\ err rd' = err rd.
Proof.
  unfold Read_iter, ReadBytes.
  destruct (splitAfter newline (pending (r rd))) as [[line rest]|] eqn:E.
  - apply splitAfter_some in E. destruct E as (l & _ & _ & Hs).
    assert (L : (length rest < length (pending (r rd)))%nat).
    { rewrite Hs, length_app. simpl. lia. }
    destruct (TrimSpace line) as [|c name].
    + intros H. inversion H; subst. simpl. auto.
    + destruct (negb (Byte.eqb c marker)).
      * destruct (rec rd); intros H; inversion H; subst. simpl. auto.
      * destruct (rec rd); intros H; inversion H; subst. simpl. auto.
  - cbv beta iota zeta. destruct (is_EOF (Some (final (r rd)))).
    + destruct (0 <? length (pending (r rd)))%nat; [destruct (rec rd)|];
        intros H; discriminate H.
    + intros H; discriminate H.
Qed.

(** With enough fuel the loop always comes to a result. *)
Lemma Read_loop_total fuel rd :
  (length (pending (r rd)) < fuel)%nat -> Read_loop fuel rd <> None.
Proof.
  revert rd. induction fuel as [|fuel IH]; intros rd H; [lia|].
  simpl. destruct (Read_iter rd) as [rd' res|rd'] eqn:E; [discriminate|].
  apply IH. apply Read_iter_Continue in E. lia.
Qed.

(** The result does not depend on how much fuel there is beyond that. *)
Lemma Read_loop_fuel f1 f2 rd :
  (length (pending (r rd)) < f1)%nat ->
  (length (pending (r rd)) < f2)%nat ->
  Read_loop f1 rd = Read_loop f2 rd.
Proof.
  revert f2 rd. induction f1 as [|f1 IH]; intros f2 rd H1 H2; [lia|].
  destruct f2 as [|f2]; [lia|].
  simpl. destruct (Read_iter rd) as [rd' res|rd'] eqn:E; [reflexivity|].
  apply Read_iter_Continue in E. apply IH; lia.
Qed.

(** The fuel that [Read] gives its loop is enough. *)
Lemma Read_fuel_enough rd :
  exists out, Read_loop (S (length (pending (r rd)))) rd = Some out.
Proof.
  destruct (Read_loop (S (length (pending (r rd)))) rd) as [out|] eqn:E.
  - exists out. reflexivity.
  - apply Read_loop_total in E; [contradiction | lia].
Qed.

(** [Read] is its loop: one iteration, then either the result or [Read]
    again. *)
Lemma Read_unfold rd :
  is_EOF (err rd) = false ->
  Read rd = match Read_iter rd with
            | Done rd' res => (rd', res)
            | Continue rd' => Read rd'
            end.
Proof.
  intros H. unfold Read at 1. rewrite H. simpl.
  destruct (Read_iter rd) as [rd' res|rd'] eqn:E; [reflexivity|].
  pose proof (Read_iter_Continue _ _ E) as [L Herr].
  unfold Read. rewrite Herr, H.
  rewrite (Read_loop_fuel (length (pending (r rd)))
             (S (length (pending (r rd')))) rd') by lia.
  destruct (Read_loop (S (length (pending (r rd')))) rd') eqn:T;
    [reflexivity|].
  apply Read_loop_total in T; [contradiction | lia].
Qed.

(** * Reading line by line *)

Lemma NewReader_reading s :
  NewReader (strings_NewReader s) = reading io_EOF s None.
Proof. reflexivity. Qed.

(** One iteration on a stream that starts with the line [l]. *)
Lemma Read_iter_line f l rest rc :
  ~ In newline l ->
  Read_iter (reading f (l ++ newline :: rest) rc) =
  match TrimSpace l with
  | [] => Continue (reading f rest rc)
  | c :: name =>
      if negb (Byte.eqb c marker) then
        match rc with
        | None => Done (reading f rest None) (Return None (Some format_error))
        | Some x => Continue (reading f rest (Some (appendSeq x (c :: name))))
        end
      else
        match rc with
        | Some t =>
            Done (reading f rest (Some {| Header := name; Sequence := [] |}))
                 (Return (Some t) None)
        | None =>
            Continue (reading f rest (Some {| Header := name; Sequence := [] |}))
        end
  end.
Proof.
  intros H. unfold Read_iter, ReadBytes, reading. simpl.
  rewrite (splitAfter_line newline l rest H). cbv beta iota zeta.
  rewrite TrimSpace_line.
  destruct (TrimSpace l) as [|c name]; [reflexivity|].
  destruct (negb (Byte.eqb c marker)); destruct rc; reflexivity.
Qed.

(** One iteration on the unterminated rest [t] of a stream. *)
Lemma Read_iter_tail t rc :
  ~ In newline t ->
  Read_iter (reading io_EOF t rc) =
  match t, rc with
  | [], _ => Done (ended rc) (Return rc None)
  | _ :: _, None => Done (reading io_EOF [] None) Panic
  | _ :: _, Some x =>
      Done (ended (Some (appendSeq x t))) (Return (Some (appendSeq x t)) None)
  end.
Proof.
  intros H. unfold Read_iter, ReadBytes, reading. simpl.
  rewrite (splitAfter_none newline t H). cbv beta iota zeta.
  destruct t as [|c t]; simpl; [reflexivity|].
  destruct rc; reflexivity.
Qed.

Lemma unlines_cons l ls rest :
  unlines (l :: ls) ++ rest = l ++ newline :: unlines ls ++ rest.
Proof.
  unfold unlines. simpl. rewrite <- !app_assoc. reflexivity.
Qed.

(** A blank line is skipped. *)
Lemma Read_blank f l rest rc :
  ~ In newline l -> isBlank l = true ->
  Read (reading f (l ++ newline :: rest) rc) = Read (reading f rest rc).
Proof.
  intros Hl Hb. rewrite Read_unfold by reflexivity.
  rewrite Read_iter_line by exact Hl.
  unfold isBlank in Hb. destruct (TrimSpace l); [reflexivity|discriminate].
Qed.

(** A line that is not a header adds its trimmed bytes to the record in
    progress. *)
Lemma Read_body_line f l rest x :
  ~ In newline l -> isHeader l = false ->
  Read (reading f (l ++ newline :: rest) (Some x)) =
  Read (reading f rest (Some (appendSeq x (TrimSpace l)))).
Proof.
  intros Hl Hh. rewrite Read_unfold by reflexivity.
  rewrite Read_iter_line by exact Hl.
  unfold isHeader in Hh. destruct (TrimSpace l) as [|c name].
  - destruct x as [h q]. unfold appendSeq. simpl. rewrite app_nil_r.
    reflexivity.
  - rewrite Hh. reflexivity.
Qed.

(** A header line seals the record in progress and starts the next. *)
Lemma Read_header_seal f l rest x :
  ~ In newline l -> isHeader l = true ->
  Read (reading f (l ++ newline :: rest) (Some x)) =
  (reading f rest (Some {| Header := headerName l; Sequence := [] |}),
   Return (Some x) None).
Proof.
  intros Hl Hh. rewrite Read_unfold by reflexivity.
  rewrite Read_iter_line by exact Hl.
  unfold isHeader in Hh. unfold headerName.
  destruct (TrimSpace l) as [|c name]; [discriminate|].
  rewrite Hh. reflexivity.
Qed.

(** The first header line starts a record, and reading goes on. *)
Lemma Read_header_first f l rest :
  ~ In newline l -> isHeader l = true ->
  Read (reading f (l ++ newline :: rest) None) =
  Read (reading f rest (Some {| Header := headerName l; Sequence := [] |})).
Proof.
  intros Hl Hh. rewrite Read_unfold by reflexivity.
  rewrite Read_iter_line by exact Hl.
  unfold isHeader in Hh. unfold headerName.
  destruct (TrimSpace l) as [|c name]; [discriminate|].
  rewrite Hh. reflexivity.
Qed.

(** A data line before any header is a format error. *)
Lemma Read_data_first f l rest :
  ~ In newline l -> isData l = true ->
  Read (reading f (l ++ newline :: rest) None) =
  (reading f rest None, Return None (Some format_error)).
Proof.
  intros Hl Hd. rewrite Read_unfold by reflexivity.
  rewrite Read_iter_line by exact Hl.
  unfold isData in Hd.
  destruct (TrimSpace l) as [|c name]; [discriminate|].
  rewrite Hd. reflexivity.
Qed.

(** The end of the input. *)
Lemma Read_tail t rc :
  ~ In newline t ->
  Read (reading io_EOF t rc) =
  match t, rc with
  | [], _ => (ended rc, Return rc None)
  | _ :: _, None => (reading io_EOF [] None, Panic)
  | _ :: _, Some x =>
      (ended (Some (appendSeq x t)), Return (Some (appendSeq x t)) None)
  end.
Proof.
  intros H. rewrite Read_unfold by reflexivity. rewrite Read_iter_tail by exact H.
  destruct t; destruct rc; reflexivity.
Qed.

(** After the end, [io.EOF] and nothing else. *)
Lemma Read_at_EOF rd :
  err rd = Some io_EOF -> Read rd = (rd, Return None (Some io_EOF)).
Proof. intros H. unfold Read. rewrite H. reflexivity. Qed.

Lemma Reads_at_EOF n rd :
  err rd = Some io_EOF -> Reads n rd = repeat (Return None (Some io_EOF)) n.
Proof.
  intros H. induction n as [|n IH]; [reflexivity|].
  simpl. rewrite (Read_at_EOF rd H). rewrite IH. reflexivity.
Qed.

(** * Well-formed input *)

Lemma appendSeq_nil x : appendSeq x [] = x.
Proof. destruct x. unfold appendSeq. simpl. rewrite app_nil_r. reflexivity. Qed.

Lemma appendSeq_app x a b : appendSeq (appendSeq x a) b = appendSeq x (a ++ b).
Proof. unfold appendSeq. simpl. rewrite app_assoc. reflexivity. Qed.

(** Blank lines are passed over. *)
Lemma Read_blanks f blanks rest rc :
  wf_blanks blanks ->
  Read (reading f (unlines blanks ++ rest) rc) = Read (reading f rest rc).
Proof.
  induction 1 as [|l ls [Hl Hb] _ IH]; [reflexivity|].
  rewrite unlines_cons, Read_blank by assumption. exact IH.
Qed.

(** The lines of a body are gathered into the record in progress. *)
Lemma Read_body f ls rest x :
  wf_body ls ->
  Read (reading f (unlines ls ++ rest) (Some x)) =
  Read (reading f rest (Some (appendSeq x (concat (map TrimSpace ls))))).
Proof.
  intros H. revert x.
  induction H as [|l ls [Hl Hh] _ IH]; intros x.
  - simpl. rewrite appendSeq_nil. reflexivity.
  - rewrite unlines_cons, Read_body_line by assumption.
    rewrite IH, appendSeq_app. reflexivity.
Qed.

(** A body followed by the next block: the record is handed out and the
    next one is in progress. *)
Lemma Read_body_block f ls b rest x :
  wf_body ls -> wf_block b ->
  Read (reading f (unlines ls ++ renderBlock b ++ rest) (Some x)) =
  (reading f (unlines (body b) ++ rest)
     (Some {| Header := headerName (head b); Sequence := [] |}),
   Return (Some (appendSeq x (concat (map TrimSpace ls)))) None).
Proof.
  intros Hls (Hl & Hh & _). rewrite Read_body by exact Hls.
  unfold renderBlock. rewrite unlines_cons.
  apply Read_header_seal; assumption.
Qed.

(** A body followed by the unterminated end [t] of the input: the record is
    handed out with [t] added as it is. *)
Lemma Read_body_end ls t x :
  wf_body ls -> ~ In newline t ->
  let x' := appendSeq (appendSeq x (concat (map TrimSpace ls))) t in
  Read (reading io_EOF (unlines ls ++ t) (Some x)) =
  (ended (Some x'), Return (Some x') None).
Proof.
  intros Hls Ht x'. rewrite Read_body by exact Hls.
  rewrite Read_tail by exact Ht. subst x'.
  destruct t; [rewrite appendSeq_nil|]; reflexivity.
Qed.

(** All the calls on a record in progress followed by whole blocks. *)
Lemma Reads_blocks blocks : forall ls x k,
  wf_body ls -> Forall wf_block blocks ->
  Reads (S (length blocks) + k)
    (reading io_EOF (unlines ls ++ flat_map renderBlock blocks) (Some x)) =
  returned (appendSeq x (concat (map TrimSpace ls)))
    :: map (fun b => returned (recordOf b)) blocks ++ repeat at_EOF k.
Proof.
  induction blocks as [|b bs IH]; intros ls x k Hls Hbs.
  - change (S (length (@nil block)) + k)%nat with (S k).
    cbn [Reads flat_map]. 
    pose proof (Read_body_end ls [] x Hls (fun F => F)) as E.
    cbv zeta in E. rewrite appendSeq_nil in E. rewrite E.
    rewrite Reads_at_EOF by reflexivity. reflexivity.
  - inversion Hbs as [|? ? Hb Hbs']; subst.
    change (S (length (b :: bs)) + k)%nat with (S (S (length bs) + k)).
    cbn [Reads flat_map].
    rewrite Read_body_block by assumption.
    rewrite IH by (try apply Hb; assumption).
    reflexivity.
Qed.

(** The calls depend on the reader through the first call only. *)
Lemma Reads_same_first n rd1 rd2 :
  Read rd1 = Read rd2 -> Reads (S n) rd1 = Reads (S n) rd2.
Proof. intros H. simpl. rewrite H. reflexivity. Qed.

(** All the calls on a well-formed input. *)
Lemma Reads_render blanks blocks k :
  wf_blanks blanks -> Forall wf_block blocks ->
  Reads (S (length blocks) + k)
    (NewReader (strings_NewReader (render blanks blocks))) =
  match blocks with
  | [] => Return None None :: repeat at_EOF k
  | _ :: _ => map (fun b => returned (recordOf b)) blocks ++ repeat at_EOF (S k)
  end.
Proof.
  intros Hbl Hbs. rewrite NewReader_reading. unfold render.
  destruct blocks as [|b bs].
  - cbn [length Nat.add Reads flat_map]. rewrite Read_blanks by exact Hbl.
    rewrite Read_tail by (intros F; exact F).
    rewrite Reads_at_EOF by reflexivity. reflexivity.
  - inversion Hbs as [|? ? Hb Hbs']; subst.
    destruct Hb as (Hl & Hh & Hls).
    replace (S (length (b :: bs)) + k)%nat with (S (length bs) + S k)%nat
      by (simpl; lia).
    transitivity
      (Reads (S (length bs) + S k)
         (reading io_EOF (unlines (body b) ++ flat_map renderBlock bs)
            (Some {| Header := headerName (head b); Sequence := [] |}))).
    + apply Reads_same_first.
      cbn [flat_map]. rewrite Read_blanks by exact Hbl.
      unfold renderBlock at 1. rewrite unlines_cons.
      apply Read_header_first; assumption.
    + rewrite Reads_blocks by assumption. reflexivity.
Qed.

(** A stream that fails: the error is passed on, with no record. *)
Lemma Read_failure f t rc :
  ~ In newline t -> f <> io_EOF ->
  Read (reading f t rc) = (reading f [] rc, Return None (Some f)).
Proof.
  intros Ht Hf. rewrite Read_unfold by reflexivity.
  unfold Read_iter, ReadBytes, reading. simpl.
  rewrite (splitAfter_none newline t Ht). cbv beta iota zeta.
  destruct f; [contradiction| |]; reflexivity.
Qed.

(** * Facts about the writer *)

Lemma wrap_from_cons wd j c data :
  wrap_from wd j (c :: data) =
  (if (Z.of_nat j mod wd =? 0)%Z then [newline; c] else [c])
    ++ wrap_from wd (S j) data.
Proof. reflexivity. Qed.

(** Go's remainder and the mathematical one vanish together. *)
Lemma rem_zero_mod_zero i wd :
  wd <> 0%Z -> (Z.rem i wd =? 0)%Z = (i mod wd =? 0)%Z.
Proof.
  intros H. apply eq_true_iff_eq. rewrite !Z.eqb_eq.
  rewrite (Z.rem_divide i wd H), (Z.mod_divide i wd H). reflexivity.
Qed.

Lemma io_Write_buffer pre p :
  io_Write (buffer pre) p = (buffer (pre ++ p), Z.of_nat (length p), None).
Proof. reflexivity. Qed.

(** The loop of [Write] on such a sink. *)
Lemma Write_loop_buffer wd rest : forall j pre n,
  wd <> 0%Z ->
  Write_loop wd (Z.of_nat j) rest (buffer pre) n =
  (buffer (pre ++ wrap_from wd j rest ++ [newline]),
   WReturn (n + Z.of_nat (length (wrap_from wd j rest)) + 1) None).
Proof.
  induction rest as [|c rest IH]; intros j pre n Hwd.
  - simpl. unfold buffer. simpl. rewrite Z.add_0_r. reflexivity.
  - cbn [Write_loop].
    rewrite (proj2 (Z.eqb_neq wd 0) Hwd).
    rewrite (rem_zero_mod_zero _ _ Hwd), wrap_from_cons.
    replace (Z.of_nat j + 1)%Z with (Z.of_nat (S j)) by lia.
    destruct (Z.of_nat j mod wd =? 0)%Z.
    + rewrite !io_Write_buffer. cbv beta iota zeta.
      rewrite IH by exact Hwd. rewrite <- !app_assoc.
      rewrite !length_app. cbn [length app]. f_equal. f_equal. lia.
    + cbv beta iota zeta. rewrite io_Write_buffer. cbv beta iota zeta.
      rewrite IH by exact Hwd. rewrite <- !app_assoc.
      rewrite !length_app. cbn [length app]. f_equal. f_equal. lia.
Qed.

Lemma NewWriter_width k width0 :
  width (NewWriter k width0) = (if (width0 =? 0)%Z then 1 else width0)%Z.
Proof. reflexivity. Qed.

Lemma NewWriter_width_nonzero k width0 : width (NewWriter k width0) <> 0%Z.
Proof.
  rewrite NewWriter_width. destruct (width0 =? 0)%Z eqn:E; [lia|].
  apply Z.eqb_neq. exact E.
Qed.

(** [Write] on a sink without a limit. *)
Lemma Write_buffer {A : Type} `{SequenceI A} pre width0 (s : A) :
  let wd := width (NewWriter (buffer pre) width0) in
  let out := marker :: Name s ++ wrap_spec wd (Seq s) ++ [newline] in
  Write (NewWriter (buffer pre) width0) s =
  ({| w := buffer (pre ++ out); width := wd |},
   WReturn (Z.of_nat (length out)) None).
Proof.
  intros wd out. unfold Write. cbn [w NewWriter].
  rewrite io_Write_buffer. cbv beta iota zeta.
  change 0%Z with (Z.of_nat 0).
  fold wd.
  rewrite (Write_loop_buffer wd (Seq s) 0 _ _
             (NewWriter_width_nonzero (buffer pre) width0)).
  subst out. unfold wrap_spec. f_equal.
  - f_equal. rewrite <- app_assoc. reflexivity.
  - f_equal. cbn [length]. rewrite !length_app. cbn [length]. lia.
Qed.

(** * The writer's output *)

(** C8. Line wrapping: on a sink that takes every byte, [Write] emits '>'
    and the name, then the data with a line-break right before the byte at
    position [i] whenever [i mod width = 0], then one more line-break, and
    reports the number of bytes; [NewWriter] turns a width of 0 into 1.
    Name "Seq1" and data "AAABBB" give ">Seq1\nAA\nAB\nBB\n" at width 2 and
    ">Seq1\nA\nA\nA\nB\nB\nB\n" at width 0. *)
Theorem Write_line_wrapping {A : Type} `{SequenceI A}
    (pre : bytes) (width0 : Z) (s : A) :
  let wr := NewWriter (buffer pre) width0 in
  let out := marker :: Name s ++ wrap_spec (width wr) (Seq s) ++ [newline] in
  width wr = (if (width0 =? 0)%Z then 1 else width0)%Z
  /\ Write wr s = ({| w := buffer (pre ++ out); width := width wr |},
                   WReturn (Z.of_nat (length out)) None)
  /\ written (w (fst (Write (NewWriter bytes_Buffer 2) Seq1)))
     = text [">Seq1"; "AA"; "AB"; "BB"]
  /\ written (w (fst (Write (NewWriter bytes_Buffer 0) Seq1)))
     = text [">Seq1"; "A"; "A"; "A"; "B"; "B"; "B"].
Proof.
  intros wr out. split; [reflexivity|]. split.
  - apply Write_buffer.
  - split; reflexivity.
Qed.

(** A sequence without residues, written to an empty buffer at width 2:
    one line-break follows the name, not two. *)
Lemma Write_empty_data_single_break :
  let out := written (w (fst (Write (NewWriter bytes_Buffer 2)
                                {| Header := bs "Seq1"; Sequence := [] |}))) in
  out = bs ">Seq1" ++ [newline]
  /\ out <> bs ">Seq1" ++ [newline; newline].
Proof.
  split; [reflexivity|]. vm_compute. discriminate.
Qed.

(** C4, amended. For a sequence whose data is empty, [Write] emits the
    marker '>', the name and one line-break, and nothing else: the loop over
    the residues writes no line-break, the only one is the closing one. *)
Theorem Write_empty_data {A : Type} `{SequenceI A}
    (pre : bytes) (width0 : Z) (s : A) :
  Seq s = [] ->
  Write (NewWriter (buffer pre) width0) s =
  ({| w := buffer (pre ++ marker :: Name s ++ [newline]);
      width := width (NewWriter (buffer pre) width0) |},
   WReturn (Z.of_nat (length (Name s)) + 2) None).
Proof.
  intros Hs.
  pose proof (Write_buffer pre width0 s) as E. cbv zeta in E.
  rewrite E, Hs. unfold wrap_spec, wrap_from. cbn [length seq combine flat_map app].
  f_equal. f_equal. rewrite length_app. cbn [length]. lia.
Qed.

Lemma Write_empty_data_witness :
  Write (NewWriter (buffer []) 2) {| Header := bs "Seq1"; Sequence := [] |} =
  ({| w := buffer (bs ">Seq1" ++ [newline]); width := 2 |}, WReturn 6 None).
Proof.
  exact (Write_empty_data [] 2 {| Header := bs "Seq1"; Sequence := [] |}
           eq_refl).
Defined.

(** * The reader at the end of the input *)

(** C1. On an empty stream the first call of [Read] returns a nil record
    together with a nil error. *)
Theorem Read_empty_input_nil_nil :
  Read (NewReader (strings_NewReader [])) = (ended None, Return None None).
Proof. reflexivity. Qed.


(** A record and an error never come together. *)
Lemma Read_iter_not_both rd rd' x e :
  Read_iter rd <> Done rd' (Return (Some x) (Some e)).
Proof.
  unfold Read_iter, ReadBytes.
  destruct (splitAfter newline (pending (r rd))) as [[line rest]|].
  - destruct (TrimSpace line) as [|c name]; [discriminate|].
    destruct (negb (Byte.eqb c marker)); destruct (rec rd); discriminate.
  - cbv beta iota zeta. destruct (is_EOF (Some (final (r rd)))).
    + destruct (0 <? length (pending (r rd)))%nat; [destruct (rec rd)|];
        discriminate.
    + discriminate.
Qed.

Lemma Read_loop_not_both fuel : forall rd rd' x e,
  Read_loop fuel rd <> Some (rd', Return (Some x) (Some e)).
Proof.
  induction fuel as [|fuel IH]; intros rd rd' x e; [discriminate|].
  simpl. destruct (Read_iter rd) as [rd1 res1|rd1] eqn:E.
  - intros F. inversion F; subst. exact (Read_iter_not_both _ _ _ _ E).
  - apply IH.
Qed.

Lemma Read_not_both rd x e : snd (Read rd) <> Return (Some x) (Some e).
Proof.
  unfold Read. destruct (is_EOF (err rd)); [discriminate|].
  destruct (Read_loop (S (length (pending (r rd)))) rd) as [[rd' res]|] eqn:E;
    [|discriminate].
  cbn [snd]. intros ->. exact (Read_loop_not_both _ _ _ _ _ E).
Qed.

(** C10. On the input "AAA", data without a header and without a final
    line-break, [Read] dereferences the nil record: it panics. *)
Theorem Read_unterminated_data_panics :
  snd (Read (NewReader (strings_NewReader (bs "AAA")))) = Panic.
Proof. reflexivity. Qed.

(** The same whenever the input has no header line and ends in bytes
    without a line-break, a lone unterminated header line included. *)
Lemma Read_unterminated_no_record blanks t :
  wf_blanks blanks -> ~ In newline t -> t <> [] ->
  snd (Read (NewReader (strings_NewReader (unlines blanks ++ t)))) = Panic.
Proof.
  intros Hb Ht Hne. rewrite NewReader_reading, Read_blanks by exact Hb.
  rewrite Read_tail by exact Ht. destruct t; [contradiction|reflexivity].
Qed.

(** C7. The input ">Seq1\nAAA " ends without a line-break and with a
    space: the record's data keeps the space, while the same input with a
    line-break added gives the data "AAA". *)
Theorem Read_unterminated_not_trimmed :
  let s := bs ">Seq1" ++ newline :: bs "AAA " in
  Reads 2 (NewReader (strings_NewReader s)) =
    [returned {| Header := bs "Seq1"; Sequence := bs "AAA " |}; at_EOF]
  /\ Reads 2 (NewReader (strings_NewReader (s ++ [newline]))) =
    [returned {| Header := bs "Seq1"; Sequence := bs "AAA" |}; at_EOF]
  /\ Reads 2 (NewReader (strings_NewReader s))
     <> Reads 2 (NewReader (strings_NewReader (s ++ [newline]))).
Proof.
  split; [reflexivity|]. split; [reflexivity|]. vm_compute. discriminate.
Qed.

(** Where the two agree: a record is in progress, and the unterminated last
    line is a data line with no white space around it. *)
Lemma Read_unterminated_clean ls t x :
  wf_body ls -> ~ In newline t -> TrimSpace t = t -> isHeader t = false ->
  Read (reading io_EOF (unlines ls ++ t) (Some x)) =
  Read (reading io_EOF (unlines ls ++ t ++ [newline]) (Some x)).
Proof.
  intros Hls Ht Htrim Hh.
  pose proof (Read_body_end ls t x Hls Ht) as E1. cbv zeta in E1.
  rewrite E1.
  rewrite Read_body by exact Hls.
  change (t ++ [newline]) with (t ++ newline :: []).
  rewrite Read_body_line by assumption.
  rewrite Read_tail by (intros F; exact F).
  rewrite Htrim. reflexivity.
Qed.

(** * Data before the first header *)

(** X20. When the first line that is not blank is a data line ended by a
    line-break, [Read] fails with the error "fasta: format error: sequence
    before header" and returns no record, whatever follows that line and
    however the stream ends. *)
Theorem Read_sequence_before_header
    (f : error) (blanks : list bytes) (l rest : bytes) :
  wf_blanks blanks -> ~ In newline l -> isData l = true ->
  Read (NewReader {| pending := unlines blanks ++ l ++ newline :: rest;
                     final := f |}) =
  (reading f rest None,
   Return None
     (Some (errors_New "fasta: format error: sequence before header"))).
Proof.
  intros Hb Hl Hd.
  change (NewReader {| pending := unlines blanks ++ l ++ newline :: rest;
                       final := f |})
    with (reading f (unlines blanks ++ l ++ newline :: rest) None).
  rewrite Read_blanks by exact Hb.
  apply Read_data_first; assumption.
Qed.

Lemma Read_sequence_before_header_witness :
  Read (NewReader (strings_NewReader (text [""; "  "; "AAA"; ">Seq1"; "BBB"])))
  = (reading io_EOF (text [">Seq1"; "BBB"]) None,
     Return None
       (Some (errors_New "fasta: format error: sequence before header"))).
Proof.
  apply (Read_sequence_before_header io_EOF [bs ""; bs "  "] (bs "AAA")
           (text [">Seq1"; "BBB"])).
  - repeat constructor; simpl; intuition discriminate.
  - simpl; intuition discriminate.
  - reflexivity.
Defined.

(** C5. On the input "\nACGT", a blank line and then a data line that
    precedes any header and has no line-break after it, [Read] does not
    return the format error: it dereferences the nil record and panics.
    With the line-break added, the same call returns the format error. *)
Theorem Read_unterminated_data_no_format_error :
  let s := newline :: bs "ACGT" in
  lines s = [[]] /\ unterminated s = bs "ACGT" /\ isData (bs "ACGT") = true
  /\ snd (Read (NewReader (strings_NewReader s))) = Panic
  /\ snd (Read (NewReader (strings_NewReader s)))
     <> Return None (Some format_error)
  /\ snd (Read (NewReader (strings_NewReader (s ++ [newline]))))
     = Return None (Some format_error).
Proof.
  repeat split; try reflexivity. vm_compute. discriminate.
Qed.

(** * The end of the stream is final *)

(** The iteration that finds the end of the input returns what record there
    is, with no error, and marks the reader: [r.err = io.EOF]. *)
Lemma Read_iter_end rd line br :
  ReadBytes (r rd) newline = (line, Some io_EOF, br) ->
  line = [] \/ rec rd <> None ->
  exists rd' rc,
    Read_iter rd = Done rd' (Return rc None) /\ err rd' = Some io_EOF.
Proof.
  intros E Hsafe. unfold Read_iter. rewrite E. cbn [is_EOF].
  destruct line as [|c line]; simpl.
  - eexists _, _. split; reflexivity.
  - destruct (rec rd) as [x|].
    + eexists _, _. split; reflexivity.
    + destruct Hsafe as [F|F]; [discriminate | contradiction].
Qed.

(** An iteration that returns either leaves the error flag alone, or has
    found the end of the input and returns the reader's record, be it nil,
    with no error. *)
Lemma Read_iter_Done rd rd' res :
  Read_iter rd = Done rd' res ->
  err rd' = err rd
  \/ (err rd' = Some io_EOF /\ res = Return (rec rd') None
      /\ pending (r rd') = []).
Proof.
  unfold Read_iter, ReadBytes.
  destruct (splitAfter newline (pending (r rd))) as [[line rest]|].
  - destruct (TrimSpace line) as [|c name]; [discriminate|].
    destruct (negb (Byte.eqb c marker)); destruct (rec rd);
      intros H; inversion H; subst; left; reflexivity.
  - cbv beta iota zeta. destruct (is_EOF (Some (final (r rd)))).
    + destruct (0 <? length (pending (r rd)))%nat; [destruct (rec rd)|];
        intros H; inversion H; subst; simpl; auto.
    + intros H; inversion H; subst. left. reflexivity.
Qed.

Lemma Read_loop_end fuel : forall rd rd' res,
  Read_loop fuel rd = Some (rd', res) ->
  is_EOF (err rd) = false -> err rd' = Some io_EOF ->
  res = Return (rec rd') None /\ pending (r rd') = [].
Proof.
  induction fuel as [|fuel IH]; intros rd rd' res H Hrd Hend; [discriminate|].
  simpl in H. destruct (Read_iter rd) as [rd1 res1|rd1] eqn:E.
  - inversion H; subst. apply Read_iter_Done in E.
    destruct E as [E|(_ & E1 & E2)]; [|auto].
    rewrite E in Hend. rewrite Hend in Hrd. discriminate.
  - apply Read_iter_Continue in E. destruct E as [_ E].
    apply (IH rd1); [exact H | rewrite E; exact Hrd | exact Hend].
Qed.

(** A call that leaves [r.err] at [io.EOF] has handed out the reader's
    record with no error and used up the input; every later call returns no
    record and [io.EOF]. *)
Lemma Read_flag_sticky (rd rd' : Reader) (res : result) (n : nat) :
  is_EOF (err rd) = false -> Read rd = (rd', res) -> err rd' = Some io_EOF ->
  res = Return (rec rd') None
  /\ pending (r rd') = []
  /\ Reads n rd' = repeat (Return None (Some io_EOF)) n
  /\ after n rd' = rd'.
Proof.
  intros Hrd Hread Hend.
  assert (Hafter : forall m, after m rd' = rd').
  { induction m as [|m IH]; [reflexivity|].
    simpl. rewrite (Read_at_EOF rd' Hend). exact IH. }
  assert (Hres : res = Return (rec rd') None /\ pending (r rd') = []).
  { unfold Read in Hread. rewrite Hrd in Hread.
    destruct (Read_loop (S (length (pending (r rd)))) rd) as [out|] eqn:E.
    - subst out. exact (Read_loop_end _ _ _ _ E Hrd Hend).
    - apply Read_loop_total in E; [contradiction | lia]. }
  destruct Hres as [Hres Hpend].
  repeat split; [exact Hres | exact Hpend | | apply Hafter].
  apply Reads_at_EOF. exact Hend.
Qed.

(** The iteration in which [ReadBytes] returns [io.EOF]: a panic on a nil
    record with bytes left over, else the reader's record and no error, with
    [r.err] set. *)
Lemma Read_iter_at_end rd line br :
  ReadBytes (r rd) newline = (line, Some io_EOF, br) ->
  (exists rd', Read_iter rd = Done rd' Panic)
  \/ exists rd',
       Read_iter rd = Done rd' (Return (rec rd') None)
       /\ err rd' = Some io_EOF /\ pending (r rd') = [].
Proof.
  intros E. unfold Read_iter. rewrite E. cbn [is_EOF].
  assert (Hbr : pending br = []).
  { unfold ReadBytes in E.
    destruct (splitAfter newline (pending (r rd))) as [[l1 l2]|];
      inversion E; reflexivity. }
  destruct (0 <? length line)%nat.
  - destruct (rec rd) as [x|].
    + right.
      exists {| r := br; err := Some io_EOF; rec := Some (appendSeq x line) |}.
      split; [reflexivity|]. split; [reflexivity | exact Hbr].
    + left. eexists. reflexivity.
  - right. exists {| r := br; err := Some io_EOF; rec := rec rd |}.
    split; [reflexivity|]. split; [reflexivity | exact Hbr].
Qed.

(** Conversely, a call that sets [r.err] to [io.EOF] has come to the end
    of the input. *)
Lemma Read_loop_reaches_end fuel : forall rd rd' res,
  Read_loop fuel rd = Some (rd', res) ->
  is_EOF (err rd) = false -> err rd' = Some io_EOF -> reaches_end rd.
Proof.
  induction fuel as [|fuel IH]; intros rd rd' res H Hrd Hend; [discriminate|].
  simpl in H. destruct (Read_iter rd) as [rd1 res1|rd1] eqn:E.
  - inversion H; subst. clear H. revert E. unfold Read_iter.
    destruct (ReadBytes (r rd) newline) as [[line e] br] eqn:Eb.
    destruct e as [e'|].
    + destruct e'; cbn [is_EOF].
      * intros _. exact (end_here rd line br Eb).
      * intros E. inversion E; subst. cbn in Hend. rewrite Hend in Hrd.
        discriminate.
      * intros E. inversion E; subst. cbn in Hend. rewrite Hend in Hrd.
        discriminate.
    + destruct (TrimSpace line) as [|c name]; [discriminate|].
      destruct (negb (Byte.eqb c marker)); destruct (rec rd);
        intros E; inversion E; subst; cbn in Hend; rewrite Hend in Hrd;
        discriminate.
  - pose proof (Read_iter_Continue _ _ E) as [_ E'].
    apply (end_later rd rd1 E).
    apply (IH rd1 rd' res H); [rewrite E'; exact Hrd | exact Hend].
Qed.

(** C6. Sticky end of stream: when a call of [Read], on a reader that has
    not ended, comes to the end of the input ([ReadBytes] returns [io.EOF]
    in its loop) and returns, it hands out the reader's last record with no
    error, has used up the input and has set [r.err] to [io.EOF]; every
    later call returns no record and [io.EOF] and leaves the reader as it
    is. *)
Theorem Read_sticky_EOF
    (rd rd' : Reader) (rc : option Record_) (e : option error) (n : nat) :
  is_EOF (err rd) = false -> reaches_end rd -> Read rd = (rd', Return rc e) ->
  e = None /\ rc = rec rd'
  /\ err rd' = Some io_EOF /\ pending (r rd') = []
  /\ Reads n rd' = repeat (Return None (Some io_EOF)) n
  /\ after n rd' = rd'.
Proof.
  intros Hrd Hend. revert Hrd.
  induction Hend as [rd line br E|rd rd1 E _ IH]; intros Hrd Hread.
  - rewrite Read_unfold in Hread by exact Hrd.
    destruct (Read_iter_at_end rd line br E)
      as [[rd2 R]|(rd2 & R & Hflag & Hpend)]; rewrite R in Hread.
    + discriminate Hread.
    + inversion Hread; subst rd2; subst.
      assert (Hafter : forall m, after m rd' = rd').
      { induction m as [|m IHm]; [reflexivity|].
        simpl. rewrite (Read_at_EOF rd' Hflag). exact IHm. }
      repeat split; try assumption; try reflexivity.
      * apply Reads_at_EOF. exact Hflag.
      * apply Hafter.
  - rewrite Read_unfold in Hread by exact Hrd. rewrite E in Hread.
    apply Read_iter_Continue in E. destruct E as [_ E].
    apply IH; [rewrite E; exact Hrd | exact Hread].
Qed.

Lemma Read_sticky_EOF_witness :
  let rd := NewReader (strings_NewReader (bs ">Seq1" ++ newline :: bs "AAA")) in
  let x := {| Header := bs "Seq1"; Sequence := bs "AAA" |} in
  Read rd = (ended (Some x), returned x)
  /\ Reads 3 (ended (Some x)) = [at_EOF; at_EOF; at_EOF].
Proof.
  split; [reflexivity|].
  refine (proj1 (proj2 (proj2 (proj2 (proj2
           (Read_sticky_EOF
              (NewReader (strings_NewReader (bs ">Seq1" ++ newline :: bs "AAA")))
              (ended (Some {| Header := bs "Seq1"; Sequence := bs "AAA" |}))
              (Some {| Header := bs "Seq1"; Sequence := bs "AAA" |})
              None 3 eq_refl _ eq_refl)))))).
  apply (end_later _
           (reading io_EOF (bs "AAA")
              (Some {| Header := bs "Seq1"; Sequence := [] |}))).
  - reflexivity.
  - apply (end_here _ (bs "AAA") (strings_NewReader [])). reflexivity.
Defined.

(** * Records in the order of the headers *)

Lemma unlines_app l1 l2 : unlines (l1 ++ l2) = unlines l1 ++ unlines l2.
Proof. unfold unlines. apply flat_map_app. Qed.

Lemma render_allLines blanks blocks :
  render blanks blocks = unlines (allLines blanks blocks).
Proof.
  unfold render, allLines. rewrite unlines_app. f_equal.
  induction blocks as [|b bs IH]; [reflexivity|].
  cbn [flat_map]. rewrite unlines_app, IH. reflexivity.
Qed.

Lemma records_of_returned (bl : list block) k :
  records_of (map (fun b => returned (recordOf b)) bl ++ repeat at_EOF k)
  = map recordOf bl.
Proof.
  induction bl as [|b bl IH].
  - simpl. induction k as [|k IHk]; [reflexivity|exact IHk].
  - simpl. rewrite IH. reflexivity.
Qed.

(** Cutting at the line-breaks loses nothing. *)
Lemma splitLines_spec s :
  s = unlines (lines s) ++ unterminated s
  /\ Forall (fun l => ~ In newline l) (lines s)
  /\ ~ In newline (unterminated s).
Proof.
  unfold lines, unterminated.
  induction s as [|c t (IH1 & IH2 & IH3)].
  - simpl. split; [reflexivity|]. split; [constructor|]. intros F; exact F.
  - simpl. destruct (splitLines t) as [ls tl]. cbn [fst snd] in *.
    destruct (Byte.eqb c newline) eqn:E.
    + apply Byte.byte_dec_bl in E. subst c. cbn [fst snd].
      split; [rewrite IH1 at 1; reflexivity|].
      split; [|exact IH3].
      constructor; [intros F; exact F | exact IH2].
    + assert (Hc : c <> newline).
      { intros ->. rewrite byte_eqb_refl in E. discriminate. }
      destruct ls as [|l ls']; cbn [fst snd].
      * split; [rewrite IH1 at 1; reflexivity|].
        split; [constructor|].
        intros [F|F]; [exact (Hc F) | exact (IH3 F)].
      * apply Forall_cons_iff in IH2. destruct IH2 as [Hl Hls].
        split; [rewrite IH1 at 1; reflexivity|].
        split; [|exact IH3].
        constructor; [|exact Hls].
        intros [F|F]; [exact (Hc F) | exact (Hl F)].
Qed.

(** Grouping by header loses nothing either, and gives blocks. *)
Lemma group_spec ls :
  Forall (fun l => ~ In newline l) ls ->
  allLines (fst (group ls)) (snd (group ls)) = ls
  /\ wf_body (fst (group ls))
  /\ Forall wf_block (snd (group ls)).
Proof.
  unfold allLines.
  induction 1 as [|l ls Hl _ (IH1 & IH2 & IH3)].
  - simpl. split; [reflexivity|]. split; constructor.
  - simpl. destruct (group ls) as [pre bl]. cbn [fst snd] in *.
    destruct (isHeader l) eqn:E; cbn [fst snd].
    + split; [simpl; rewrite IH1; reflexivity|].
      split; [constructor|].
      constructor; [|exact IH3].
      split; [exact Hl|]. split; [exact E | exact IH2].
    + split; [simpl; rewrite IH1; reflexivity|].
      split; [|exact IH3].
      constructor; [split; assumption | exact IH2].
Qed.

(** The names of the blocks are the names of the header lines, in order. *)
Lemma group_headers ls :
  map head (snd (group ls)) = filter isHeader ls.
Proof.
  induction ls as [|l ls IH]; [reflexivity|].
  simpl. destruct (group ls) as [pre bl]. cbn [snd] in *.
  destruct (isHeader l); cbn [snd map]; [rewrite IH|]; auto.
Qed.

(** A well-formed input is blank lines followed by blocks. *)
Lemma well_formed_input_render s :
  well_formed_input s ->
  s = render (fst (group (lines s))) (blocks_of s)
  /\ wf_blanks (fst (group (lines s)))
  /\ Forall wf_block (blocks_of s).
Proof.
  intros [Hu Hb]. unfold blocks_of.
  destruct (splitLines_spec s) as (Hs & Hls & _).
  destruct (group_spec (lines s) Hls) as (G1 & G2 & G3).
  split; [|split; [|exact G3]].
  - rewrite render_allLines, G1. rewrite Hu, app_nil_r in Hs. exact Hs.
  - unfold wf_blanks. unfold wf_body in G2.
    rewrite Forall_forall in *. intros l Hl. split.
    + exact (proj1 (G2 l Hl)).
    + exact (Hb l Hl).
Qed.

(** X19. For every input in which every line ends in a line-break and
    the lines before the first header line are blank, with N header lines,
    more than N calls of [Read] yield exactly N records, without a panic;
    their names are the names of the header lines in the order of the input,
    and the data of each is the trimmed lines between its header and the
    next, one after the other with nothing in between. *)
Theorem Read_records_in_order (s : bytes) (n : nat) :
  well_formed_input s ->
  (length (filter isHeader (lines s)) < n)%nat ->
  let results := Reads n (NewReader (strings_NewReader s)) in
  length (records_of results) = length (filter isHeader (lines s))
  /\ map Header (records_of results)
     = map headerName (filter isHeader (lines s))
  /\ records_of results = map recordOf (blocks_of s)
  /\ ~ In Panic results.
Proof.
  intros Hwf Hn results.
  destruct (well_formed_input_render s Hwf) as (Hs & Hb & Hbs).
  pose proof (group_headers (lines s)) as Hh. fold (blocks_of s) in Hh.
  assert (HN : length (filter isHeader (lines s)) = length (blocks_of s)).
  { rewrite <- Hh. apply length_map. }
  assert (R : records_of results = map recordOf (blocks_of s)
              /\ ~ In Panic results).
  { subst results.
    assert (E : NewReader (strings_NewReader s)
                = NewReader (strings_NewReader
                               (render (fst (group (lines s))) (blocks_of s)))).
    { rewrite <- Hs. reflexivity. }
    rewrite E. clear E.
    replace n with (S (length (blocks_of s)) + (n - S (length (blocks_of s))))%nat
      by lia.
    rewrite (Reads_render _ (blocks_of s) _ Hb Hbs).
    destruct (blocks_of s) as [|b bs].
    - split.
      + simpl. exact (records_of_returned [] _).
      + intros [F|F]; [discriminate|]. apply repeat_spec in F. discriminate.
    - split.
      + apply records_of_returned.
      + intros F. apply in_app_or in F. destruct F as [F|F].
        * apply in_map_iff in F. destruct F as (? & F & _). discriminate.
        * apply repeat_spec in F. discriminate. }
  destruct R as [R1 R2]. rewrite R1.
  split; [|split; [|split; [reflexivity | exact R2]]].
  - rewrite length_map. symmetry. exact HN.
  - rewrite <- Hh, !map_map. reflexivity.
Qed.

Lemma Read_records_in_order_witness :
  let s := text [""; "  "; ">Seq1"; "AAA"; "BBB"; ">Seq2 "; "CCC"; ""; " DDD"] in
  let results := Reads 3 (NewReader (strings_NewReader s)) in
  length (records_of results) = 2%nat
  /\ map Header (records_of results) = [bs "Seq1"; bs "Seq2"]
  /\ records_of results
     = [ {| Header := bs "Seq1"; Sequence := bs "AAABBB" |};
         {| Header := bs "Seq2"; Sequence := bs "CCCDDD" |} ]
  /\ ~ In Panic results.
Proof.
  apply (Read_records_in_order
           (text [""; "  "; ">Seq1"; "AAA"; "BBB"; ">Seq2 "; "CCC"; ""; " DDD"])
           3).
  - split; [reflexivity|]. repeat constructor.
  - simpl. lia.
Defined.

(** C3. The input ">A\n>B" has two header lines, the second without its
    line-break: [Read] yields one record, named "A", with the second header
    line as its data; with the line-break added it yields the two records
    "A" and "B", both without data. *)
Theorem Read_unterminated_header_lost :
  let s := bs ">A" ++ newline :: bs ">B" in
  isHeader (bs ">A") = true /\ isHeader (bs ">B") = true
  /\ lines s = [bs ">A"] /\ unterminated s = bs ">B"
  /\ Reads 3 (NewReader (strings_NewReader s)) =
     [returned {| Header := bs "A"; Sequence := bs ">B" |}; at_EOF; at_EOF]
  /\ Reads 3 (NewReader (strings_NewReader (s ++ [newline]))) =
     [returned {| Header := bs "A"; Sequence := [] |};
      returned {| Header := bs "B"; Sequence := [] |}; at_EOF].
Proof. repeat split; reflexivity. Qed.


(** * Writing and reading back *)

(** A record whose data ends in a space does not come back: the reader
    trims the line. *)
Lemma roundtrip_trims_data :
  let rc := {| Header := bs "Seq1"; Sequence := bs "AAA " |} in
  (Z.of_nat (length (Sequence rc)) <= 4)%Z
  /\ decode_encoded 4 rc 2 =
     [returned {| Header := bs "Seq1"; Sequence := bs "AAA" |}; at_EOF]
  /\ decode_encoded 4 rc 2 <> [returned rc; at_EOF].
Proof.
  split; [simpl; lia|]. split; [reflexivity|].
  vm_compute. discriminate.
Qed.

(** Below the width, only the first byte gets a line-break. *)
Lemma wrap_from_inside wd data : forall j,
  (0 < j)%nat -> (Z.of_nat (j + length data) <= wd)%Z ->
  wrap_from wd j data = data.
Proof.
  induction data as [|c data IH]; intros j Hj Hle; [reflexivity|].
  rewrite wrap_from_cons. cbn [length] in Hle.
  rewrite Z.mod_small by lia.
  rewrite (proj2 (Z.eqb_neq (Z.of_nat j) 0)) by lia.
  cbn [app]. f_equal. apply IH; lia.
Qed.

Lemma wrap_spec_wide wd data :
  (0 < wd)%Z -> (Z.of_nat (length data) <= wd)%Z ->
  wrap_spec wd data = match data with
                      | [] => []
                      | _ :: _ => newline :: data
                      end.
Proof.
  intros Hwd Hle. destruct data as [|c data]; [reflexivity|].
  unfold wrap_spec. rewrite wrap_from_cons.
  change (Z.of_nat 0) with 0%Z. rewrite Z.mod_0_l by lia.
  cbn [Z.eqb app]. cbn [length] in Hle.
  rewrite wrap_from_inside by (simpl; lia). reflexivity.
Qed.

(** A header line made of the marker and a name without trailing white
    space is its own trimmed form. *)
Lemma TrimSpace_marker_name name :
  TrimRightSpace name = name -> TrimSpace (marker :: name) = marker :: name.
Proof.
  intros H. unfold TrimSpace.
  rewrite TrimLeftSpace_low_head by reflexivity.
  rewrite TrimRightSpace_cons_low by reflexivity.
  rewrite H. reflexivity.
Qed.

(** C2, amended. Round trip: for a record whose name holds no line-break
    and does not end in white space, and whose data holds no line-break,
    neither starts nor ends with white space and does not start with '>',
    writing it at a width of at least the length of the data and reading the
    bytes back yields that record, and after it nothing but the end of the
    stream. *)
Theorem roundtrip (W : Z) (rc : Record_) (k : nat) :
  (Z.of_nat (length (Sequence rc)) <= W)%Z ->
  ~ In newline (Header rc) -> TrimRightSpace (Header rc) = Header rc ->
  ~ In newline (Sequence rc) -> TrimSpace (Sequence rc) = Sequence rc ->
  hd_error (Sequence rc) <> Some marker ->
  decode_encoded W rc (2 + k) = returned rc :: repeat at_EOF (S k).
Proof.
  intros HW Hn1 Hn2 Hd1 Hd2 Hd3. unfold decode_encoded.
  pose proof (Write_buffer [] W rc) as E. cbv zeta in E.
  change (buffer []) with bytes_Buffer in E. rewrite E. clear E.
  cbn [fst w written buffer app Name Seq Record_SequenceI].
  assert (Hwd : (0 < width (NewWriter bytes_Buffer W))%Z
                /\ (Z.of_nat (length (Sequence rc))
                    <= width (NewWriter bytes_Buffer W))%Z).
  { rewrite NewWriter_width. destruct (W =? 0)%Z eqn:E0.
    - apply Z.eqb_eq in E0. lia.
    - apply Z.eqb_neq in E0. lia. }
  destruct Hwd as [Hpos Hle].
  rewrite (wrap_spec_wide _ _ Hpos Hle).
  assert (Hout : marker :: Header rc
                   ++ match Sequence rc with
                      | [] => []
                      | _ :: _ => newline :: Sequence rc
                      end ++ [newline]
                 = render [] [blockOf rc]).
  { unfold render, renderBlock, blockOf, unlines.
    destruct (Sequence rc) as [|c d]; cbn [flat_map head body app];
      rewrite ?app_nil_r, <- ?app_assoc; reflexivity. }
  rewrite Hout.
  assert (Hblock : wf_block (blockOf rc)).
  { unfold wf_block, blockOf. cbn [head body]. repeat split.
    - intros [F|F]; [discriminate | exact (Hn1 F)].
    - unfold isHeader. rewrite (TrimSpace_marker_name _ Hn2). reflexivity.
    - destruct (Sequence rc) as [|c d] eqn:Es; constructor; [|constructor].
      split; [exact Hd1|]. unfold isHeader. rewrite Hd2.
      apply byte_eqb_neq. intros ->. apply Hd3. reflexivity. }
  pose proof (Reads_render [] [blockOf rc] k (Forall_nil _)
                (Forall_cons _ Hblock (Forall_nil _))) as R.
  cbn [length Nat.add] in R. cbn [Nat.add]. rewrite R.
  cbn [map app]. f_equal. unfold returned. f_equal. f_equal.
  unfold recordOf, blockOf, headerName. cbn [head body].
  rewrite (TrimSpace_marker_name _ Hn2). cbn [tl].
  destruct rc as [h q]. cbn [Header Sequence] in *. f_equal.
  destruct q as [|c d]; [reflexivity|].
  cbn [map concat]. rewrite Hd2, app_nil_r. reflexivity.
Qed.

Lemma roundtrip_witness :
  decode_encoded 60 Seq1 3 = [returned Seq1; at_EOF; at_EOF].
Proof.
  apply (roundtrip 60 Seq1 1).
  - simpl. lia.
  - simpl. intuition discriminate.
  - reflexivity.
  - simpl. intuition discriminate.
  - reflexivity.
  - simpl. discriminate.
Defined.

(** * What a record handed out looks like *)


(** Trimming twice is trimming once. *)
Lemma trimStart_idem sp1 sp2 sp3 s :
  trimStart sp1 sp2 sp3 (trimStart sp1 sp2 sp3 s) = trimStart sp1 sp2 sp3 s.
Proof.
  induction s as [|c1 t IH1 IH2 IH3] using bytes_ind3; [reflexivity|].
  assert (Fix : trimStart sp1 sp2 sp3 (c1 :: t) = c1 :: t ->
                trimStart sp1 sp2 sp3 (trimStart sp1 sp2 sp3 (c1 :: t))
                = trimStart sp1 sp2 sp3 (c1 :: t)).
  { intros E. rewrite E. exact E. }
  cbn [trimStart] in *. destruct (sp1 c1); [exact IH1|].
  destruct t as [|c2 t2]; [exact (Fix eq_refl)|].
  destruct (sp2 c1 c2); [exact (IH2 c2 t2 eq_refl)|].
  destruct t2 as [|c3 t3]; [exact (Fix eq_refl)|].
  destruct (sp3 c1 c2 c3); [exact (IH3 c2 c3 t3 eq_refl)|].
  exact (Fix eq_refl).
Qed.

Lemma TrimRightSpace_idem s :
  TrimRightSpace (TrimRightSpace s) = TrimRightSpace s.
Proof.
  unfold TrimRightSpace. rewrite rev_involutive, trimStart_idem. reflexivity.
Qed.

(** The name of a trimmed header line has no trailing white space. *)
Lemma TrimSpace_header_name l name :
  TrimSpace l = marker :: name -> TrimRightSpace name = name.
Proof.
  intros E.
  assert (I : TrimRightSpace (marker :: name) = marker :: name).
  { rewrite <- E. unfold TrimSpace. apply TrimRightSpace_idem. }
  rewrite TrimRightSpace_cons_low in I by reflexivity.
  inversion I as [I']. rewrite I'. exact I'.
Qed.

Lemma well_formed_appendSeq x t :
  well_formed x -> ~ In newline t -> well_formed (appendSeq x t).
Proof.
  intros (H1 & H2 & H3) Ht. unfold well_formed, appendSeq. cbn [Header Sequence].
  repeat split; try assumption.
  intros F. apply in_app_or in F. tauto.
Qed.

(** One iteration keeps the record in progress well formed, and returns
    only well-formed records. *)
Lemma Read_iter_well_formed rd :
  rec_well_formed (rec rd) ->
  match Read_iter rd with
  | Done rd' res => rec_well_formed (rec rd') /\ result_well_formed res
  | Continue rd' => rec_well_formed (rec rd')
  end.
Proof.
  intros Inv. unfold Read_iter, ReadBytes.
  destruct (splitAfter newline (pending (r rd))) as [[line rest]|] eqn:E.
  - apply splitAfter_some in E. destruct E as (l & Hl & -> & _).
    rewrite TrimSpace_line.
    assert (Hsub : forall c, In c (TrimSpace l) -> c <> newline).
    { intros c Hc ->. apply Hl. apply TrimSpace_incl. exact Hc. }
    destruct (TrimSpace l) as [|c name] eqn:Et; [exact Inv|].
    destruct (negb (Byte.eqb c marker)) eqn:Ec.
    + destruct (rec rd) as [x|]; cbn; [|auto].
      apply well_formed_appendSeq; [exact Inv|].
      intros F. exact (Hsub _ F eq_refl).
    + apply negb_false_iff, Byte.byte_dec_bl in Ec. subst c.
      assert (Hnew : well_formed {| Header := name; Sequence := [] |}).
      { unfold well_formed. cbn [Header Sequence]. repeat split.
        - intros F. exact (Hsub newline (or_intror F) eq_refl).
        - exact (TrimSpace_header_name l name Et).
        - intros F. exact F. }
      destruct (rec rd) as [x|]; cbn; auto.
  - apply splitAfter_none_inv in E. cbv beta iota zeta.
    destruct (is_EOF (Some (final (r rd)))).
    + destruct (0 <? length (pending (r rd)))%nat.
      * destruct (rec rd) as [x|]; cbn; [|auto].
        split; apply well_formed_appendSeq; assumption.
      * cbn. auto.
    + cbn. auto.
Qed.

Lemma Read_loop_well_formed fuel : forall rd rd' res,
  rec_well_formed (rec rd) -> Read_loop fuel rd = Some (rd', res) ->
  rec_well_formed (rec rd') /\ result_well_formed res.
Proof.
  induction fuel as [|fuel IH]; intros rd rd' res Inv H; [discriminate|].
  simpl in H. pose proof (Read_iter_well_formed rd Inv) as S.
  destruct (Read_iter rd) as [rd1 res1|rd1].
  - inversion H; subst. exact S.
  - exact (IH rd1 rd' res S H).
Qed.

Lemma Read_well_formed rd :
  rec_well_formed (rec rd) ->
  rec_well_formed (rec (fst (Read rd))) /\ result_well_formed (snd (Read rd)).
Proof.
  intros Inv. unfold Read. destruct (is_EOF (err rd)).
  - cbn. auto.
  - destruct (Read_loop (S (length (pending (r rd)))) rd) as [[rd' res]|] eqn:E.
    + exact (Read_loop_well_formed _ _ _ _ Inv E).
    + cbn. auto.
Qed.

Lemma Reads_well_formed n : forall rd,
  rec_well_formed (rec rd) -> Forall result_well_formed (Reads n rd).
Proof.
  induction n as [|n IH]; intros rd Inv; [constructor|].
  simpl. pose proof (Read_well_formed rd Inv) as [S1 S2].
  destruct (Read rd) as [rd' res]. cbn [fst snd] in *.
  constructor; [exact S2|].
  destruct res; [apply IH; exact S1 | constructor].
Qed.

(** X21. In every record that [Read] hands to the caller, on any stream
    and at any call, the name holds no line-break and does not end in white
    space, and the data holds no line-break. *)
Theorem Read_record_shape
    (f : bufio_Reader) (n : nat) (x : Record_) (e : option error) :
  In (Return (Some x) e) (Reads n (NewReader f)) ->
  ~ In newline (Header x)
  /\ TrimRightSpace (Header x) = Header x
  /\ ~ In newline (Sequence x).
Proof.
  intros H.
  pose proof (Reads_well_formed n (NewReader f) I) as W.
  rewrite Forall_forall in W. exact (W _ H).
Qed.

Lemma Read_record_shape_witness :
  let x := {| Header := bs "Seq1"; Sequence := bs "AAABBB" |} in
  ~ In newline (Header x)
  /\ TrimRightSpace (Header x) = Header x
  /\ ~ In newline (Sequence x).
Proof.
  apply (Read_record_shape
           (strings_NewReader (text [">Seq1"; "AAA"; "BBB"])) 1 _ None).
  left. reflexivity.
Defined.

(** ** The names of the records are the names of the header lines *)





(** * Further properties of the reader *)

(** ** A record or an error, not both *)

(** X1. When [Read] returns a record, the error it returns is nil: a record
    and an error never come together, on any stream and in any state of the
    reader. *)
Theorem Read_record_without_error (rd : Reader) :
  match snd (Read rd) with
  | Return (Some _) e => e = None
  | Return None _ | Panic => True
  end.
Proof.
  destruct (snd (Read rd)) as [[x|] [e|]|] eqn:E; auto.
  exfalso. exact (Read_not_both rd x e E).
Qed.

(** ** Once a header has been seen *)

Lemma Read_iter_in_progress rd x :
  rec rd = Some x ->
  match Read_iter rd with
  | Done rd' res =>
      rec rd' <> None
      /\ ((exists y, res = returned y)
          \/ (res = failed (final (r rd)) /\ final (r rd) <> io_EOF))
  | Continue rd' => rec rd' <> None /\ final (r rd') = final (r rd)
  end.
Proof.
  intros Hx. unfold Read_iter, ReadBytes. rewrite Hx.
  destruct (splitAfter newline (pending (r rd))) as [[line rest]|].
  - destruct (TrimSpace line) as [|c name].
    + split; [discriminate | reflexivity].
    + destruct (negb (Byte.eqb c marker)).
      * split; [discriminate | reflexivity].
      * split; [discriminate|]. left. exists x. reflexivity.
  - cbv beta iota zeta. destruct (final (r rd)) eqn:Ef; cbn [is_EOF].
    + destruct (0 <? length (pending (r rd)))%nat.
      * split; [discriminate|]. left. eexists. reflexivity.
      * split; [discriminate|]. left. exists x. reflexivity.
    + split; [discriminate|]. right. split; [reflexivity | discriminate].
    + split; [discriminate|]. right. split; [reflexivity | discriminate].
Qed.

Lemma Read_loop_in_progress fuel : forall rd rd' res x,
  rec rd = Some x -> Read_loop fuel rd = Some (rd', res) ->
  rec rd' <> None
  /\ ((exists y, res = returned y)
      \/ (res = failed (final (r rd)) /\ final (r rd) <> io_EOF)).
Proof.
  induction fuel as [|fuel IH]; intros rd rd' res x Hx H; [discriminate|].
  simpl in H. pose proof (Read_iter_in_progress rd x Hx) as S.
  destruct (Read_iter rd) as [rd1 res1|rd1].
  - inversion H; subst. exact S.
  - destruct S as [S1 S2]. destruct (rec rd1) as [x1|] eqn:E1; [|contradiction].
    rewrite <- S2. exact (IH rd1 rd' res x1 E1 H).
Qed.

Lemma Read_in_progress_aux rd x :
  rec rd = Some x -> is_EOF (err rd) = false ->
  rec (fst (Read rd)) <> None
  /\ ((exists y, snd (Read rd) = returned y)
      \/ (snd (Read rd) = failed (final (r rd)) /\ final (r rd) <> io_EOF)).
Proof.
  intros Hx He. unfold Read. rewrite He.
  destruct (Read_fuel_enough rd) as [[rd' res] E]. rewrite E. cbn [fst snd].
  exact (Read_loop_in_progress _ _ _ _ _ Hx E).
Qed.

(** X2. With a record in progress, a call of [Read] on a reader that has not
    ended returns a record and no error, or else no record and the error of
    the stream, which then is not [io.EOF]: it does not panic, and returns
    neither a format error nor nil with nil; a record stays in progress. *)
Theorem Read_in_progress (rd : Reader) (x : Record_) :
  rec rd = Some x -> is_EOF (err rd) = false ->
  rec (fst (Read rd)) <> None
  /\ ((exists y, snd (Read rd) = returned y)
      \/ (snd (Read rd) = failed (final (r rd)) /\ final (r rd) <> io_EOF)).
Proof. exact (Read_in_progress_aux rd x). Qed.

Lemma Read_in_progress_witness :
  let rd := reading io_EOF (text ["AAA"; ">Seq2"])
              (Some {| Header := bs "Seq1"; Sequence := [] |}) in
  rec (fst (Read rd)) <> None
  /\ ((exists y, snd (Read rd) = returned y)
      \/ (snd (Read rd) = failed (final (r rd)) /\ final (r rd) <> io_EOF)).
Proof.
  exact (Read_in_progress
           (reading io_EOF (text ["AAA"; ">Seq2"])
              (Some {| Header := bs "Seq1"; Sequence := [] |}))
           {| Header := bs "Seq1"; Sequence := [] |} eq_refl eq_refl).
Defined.

(** ** Every call gets nearer to the end *)

Lemma Read_iter_final rd :
  match Read_iter rd with
  | Done rd' _ | Continue rd' => final (r rd') = final (r rd)
  end.
Proof.
  unfold Read_iter, ReadBytes.
  destruct (splitAfter newline (pending (r rd))) as [[line rest]|].
  - destruct (TrimSpace line) as [|c name]; [reflexivity|].
    destruct (negb (Byte.eqb c marker)); destruct (rec rd); reflexivity.
  - cbv beta iota zeta. destruct (is_EOF (Some (final (r rd)))).
    + destruct (0 <? length (pending (r rd)))%nat; [destruct (rec rd)|];
        reflexivity.
    + reflexivity.
Qed.

Lemma Read_iter_progress rd rd' res :
  final (r rd) = io_EOF -> Read_iter rd = Done rd' res ->
  res = Panic \/ err rd' = Some io_EOF
  \/ ((length (pending (r rd')) < length (pending (r rd)))%nat
      /\ err rd' = err rd).
Proof.
  intros Hf. unfold Read_iter, ReadBytes.
  destruct (splitAfter newline (pending (r rd))) as [[line rest]|] eqn:E.
  - apply splitAfter_some in E. destruct E as (l & _ & _ & Hs).
    assert (L : (length rest < length (pending (r rd)))%nat).
    { rewrite Hs, length_app. simpl. lia. }
    destruct (TrimSpace line) as [|c name]; [discriminate|].
    destruct (negb (Byte.eqb c marker)); destruct (rec rd);
      intros H; inversion H; subst; right; right; simpl; auto.
  - cbv beta iota zeta. rewrite Hf. cbn [is_EOF].
    destruct (0 <? length (pending (r rd)))%nat; [destruct (rec rd)|];
      intros H; inversion H; subst; simpl; auto.
Qed.

Lemma Read_loop_progress fuel : forall rd rd' res,
  final (r rd) = io_EOF -> Read_loop fuel rd = Some (rd', res) ->
  final (r rd') = io_EOF
  /\ (res = Panic \/ err rd' = Some io_EOF
      \/ ((length (pending (r rd')) < length (pending (r rd)))%nat
          /\ err rd' = err rd)).
Proof.
  induction fuel as [|fuel IH]; intros rd rd' res Hf H; [discriminate|].
  simpl in H. pose proof (Read_iter_final rd) as F.
  destruct (Read_iter rd) as [rd1 res1|rd1] eqn:E.
  - inversion H; subst. split; [congruence|].
    exact (Read_iter_progress _ _ _ Hf E).
  - apply Read_iter_Continue in E. destruct E as [L Herr].
    destruct (IH rd1 rd' res (eq_trans F Hf) H) as [F' P].
    split; [exact F'|].
    destruct P as [P|[P|[P1 P2]]]; auto.
    right; right. split; [lia | congruence].
Qed.

(** A call on a stream that ends in [io.EOF] panics, or brings the reader
    to its end, or uses up at least one byte of the input. *)
Lemma Read_progress rd :
  final (r rd) = io_EOF -> is_EOF (err rd) = false ->
  final (r (fst (Read rd))) = io_EOF
  /\ (snd (Read rd) = Panic \/ err (fst (Read rd)) = Some io_EOF
      \/ ((length (pending (r (fst (Read rd)))) < length (pending (r rd)))%nat
          /\ err (fst (Read rd)) = err rd)).
Proof.
  intros Hf He. unfold Read. rewrite He.
  destruct (Read_fuel_enough rd) as [[rd' res] E]. rewrite E. cbn [fst snd].
  exact (Read_loop_progress _ _ _ _ Hf E).
Qed.

Lemma ExampleReader_fuel fuel : forall rd out,
  final (r rd) = io_EOF ->
  ((if is_EOF (err rd) then 1 else length (pending (r rd)) + 2) <= fuel)%nat ->
  snd (ExampleReader fuel rd out) <> Unfinished.
Proof.
  induction fuel as [|fuel IH]; intros rd out Hf Hm.
  - destruct (is_EOF (err rd)); lia.
  - cbn [ExampleReader]. destruct (is_EOF (err rd)) eqn:He.
    + unfold Read. rewrite He. cbn. discriminate.
    + pose proof (Read_progress rd Hf He) as [F P].
      destruct (Read rd) as [rd' res]. cbn [fst snd] in *.
      destruct res as [record e|]; [|cbn; discriminate].
      destruct (is_EOF e); [cbn; discriminate|].
      destruct e as [e'|]; [cbn; discriminate|].
      destruct record as [x|]; [|cbn; discriminate].
      apply IH; [exact F|].
      destruct P as [P|[P|[P1 P2]]]; [discriminate | |].
      * rewrite P. cbn [is_EOF]. lia.
      * rewrite P2, He. lia.
Qed.

(** X3. The loop of [ExampleReader] comes to an end on every input: within as
    many rounds as the input has bytes, and two more, it has met [io.EOF],
    an error, or a panic. *)
Theorem ExampleReader_terminates (s out : bytes) :
  stopped (snd (ExampleReader (length s + 2)
                  (NewReader (strings_NewReader s)) out)) = true.
Proof.
  pose proof (ExampleReader_fuel (length s + 2)
                (NewReader (strings_NewReader s)) out eq_refl) as H.
  destruct (snd (ExampleReader (length s + 2)
                   (NewReader (strings_NewReader s)) out));
    try reflexivity.
  exfalso. apply H; [cbn; lia | reflexivity].
Qed.

(** ** What the loop of [ExampleReader] prints *)

(** What is printed for a record: the name and the residues, a line each. *)
Lemma ExampleReader_records recs : forall fuel rd out,
  Reads (S (length recs)) rd = map returned recs ++ [at_EOF] ->
  (length recs < fuel)%nat ->
  ExampleReader fuel rd out =
  (out ++ flat_map (fun x => Header x ++ [newline] ++ Sequence x ++ [newline])
            recs,
   Finished).
Proof.
  induction recs as [|x recs IH]; intros fuel rd out H Hf.
  - destruct fuel as [|fuel]; [lia|]. cbn in H. cbn [ExampleReader].
    destruct (Read rd) as [rd' res]. destruct res as [rc e|].
    + inversion H; subst. cbn. rewrite app_nil_r. reflexivity.
    + discriminate.
  - destruct fuel as [|fuel]; [lia|].
    cbn [length] in H. cbn [Reads map app] in H. cbn [ExampleReader].
    destruct (Read rd) as [rd' res]. destruct res as [rc e|].
    + inversion H as [[H1 H2 H3]]. cbn [is_EOF].
      rewrite (IH fuel rd' _ H3) by (simpl in Hf; lia).
      cbn [flat_map Name Seq Record_SequenceI]. rewrite <- !app_assoc.
      reflexivity.
    + discriminate.
Qed.

(** X4. On a well-formed input with at least one header line, the loop of
    [ExampleReader] prints name and data of each record, in the order of the
    headers, and ends at [io.EOF]. *)
Theorem ExampleReader_prints (s : bytes) (fuel : nat) :
  well_formed_input s -> blocks_of s <> [] ->
  (length (blocks_of s) < fuel)%nat ->
  ExampleReader fuel (NewReader (strings_NewReader s)) [] =
  (flat_map (fun x => Header x ++ [newline] ++ Sequence x ++ [newline])
     (map recordOf (blocks_of s)),
   Finished).
Proof.
  intros Hwf Hne Hf.
  destruct (well_formed_input_render s Hwf) as (Hs & Hb & Hbs).
  assert (E : NewReader (strings_NewReader s)
              = NewReader (strings_NewReader
                             (render (fst (group (lines s))) (blocks_of s)))).
  { rewrite <- Hs. reflexivity. }
  rewrite E. clear E.
  pose proof (Reads_render _ (blocks_of s) 0 Hb Hbs) as R.
  destruct (blocks_of s) as [|b bs] eqn:Eb; [contradiction|].
  rewrite Nat.add_0_r in R.
  rewrite (ExampleReader_records (map recordOf (b :: bs)) fuel _ []).
  - reflexivity.
  - rewrite length_map, R, map_map. reflexivity.
  - rewrite length_map. exact Hf.
Qed.

Lemma ExampleReader_prints_witness :
  ExampleReader 2 (NewReader (strings_NewReader (text [">Seq1"; "AAA"; "BBB"])))
    [] = (text ["Seq1"; "AAABBB"], Finished).
Proof.
  apply (ExampleReader_prints (text [">Seq1"; "AAA"; "BBB"]) 2).
  - split; [reflexivity | constructor].
  - discriminate.
  - simpl. lia.
Defined.



(** ** After a format error *)

(** X6. The format error does not end the reading: the calls after it are the
    calls on what follows the offending line. *)
Theorem Reads_after_format_error
    (f : error) (blanks : list bytes) (l rest : bytes) (n : nat) :
  wf_blanks blanks -> ~ In newline l -> isData l = true ->
  Reads (S n) (NewReader {| pending := unlines blanks ++ l ++ newline :: rest;
                            final := f |}) =
  failed format_error :: Reads n (NewReader {| pending := rest; final := f |}).
Proof.
  intros Hb Hl Hd.
  change (NewReader {| pending := unlines blanks ++ l ++ newline :: rest;
                       final := f |})
    with (reading f (unlines blanks ++ l ++ newline :: rest) None).
  cbn [Reads]. rewrite Read_blanks by exact Hb.
  rewrite Read_data_first by assumption. reflexivity.
Qed.

Lemma Reads_after_format_error_witness :
  Reads 3 (NewReader (strings_NewReader (text ["AAA"; ">Seq1"; "BBB"]))) =
  [failed format_error;
   returned {| Header := bs "Seq1"; Sequence := bs "BBB" |}; at_EOF].
Proof.
  apply (Reads_after_format_error io_EOF [] (bs "AAA")
           (text [">Seq1"; "BBB"]) 2).
  - constructor.
  - simpl; intuition discriminate.
  - reflexivity.
Defined.

(** ** Lines that read alike *)

(** Two streams that start with lines of the same trimmed content, and go
    on with streams that read alike, read alike. *)
Lemma Reads_line_congr f l1 l2 R1 R2 :
  ~ In newline l1 -> ~ In newline l2 -> TrimSpace l1 = TrimSpace l2 ->
  (forall rc n, Reads n (reading f R1 rc) = Reads n (reading f R2 rc)) ->
  forall rc n,
    Reads n (reading f (l1 ++ newline :: R1) rc)
    = Reads n (reading f (l2 ++ newline :: R2) rc).
Proof.
  intros H1 H2 Ht HR rc n. destruct n as [|n]; [reflexivity|].
  cbn [Reads]. rewrite !Read_unfold by reflexivity.
  rewrite !Read_iter_line by assumption. rewrite <- Ht.
  destruct (TrimSpace l1) as [|c name].
  - exact (HR rc (S n)).
  - destruct (negb (Byte.eqb c marker)).
    + destruct rc as [x|].
      * exact (HR _ (S n)).
      * rewrite (HR None n). reflexivity.
    + destruct rc as [x|].
      * rewrite (HR _ n). reflexivity.
      * exact (HR _ (S n)).
Qed.




(** ** White space around a line *)

Lemma trimStart_length sp1 sp2 sp3 s :
  (length (trimStart sp1 sp2 sp3 s) <= length s)%nat.
Proof.
  destruct (trimStart_suffix sp1 sp2 sp3 s) as [p Hp].
  rewrite Hp at 2. rewrite length_app. lia.
Qed.

(** A slice that trimming leaves alone has prefixes that it leaves alone. *)
Lemma trimStart_prefix_fixed sp1 sp2 sp3 p q :
  trimStart sp1 sp2 sp3 (p ++ q) = p ++ q ->
  trimStart sp1 sp2 sp3 p = p.
Proof.
  assert (L : forall u v : bytes,
             trimStart sp1 sp2 sp3 u = v -> (length v <= length u)%nat).
  { intros u v <-. apply trimStart_length. }
  intros H.
  destruct p as [|c1 p]; [reflexivity|].
  cbn [app] in H. cbn [trimStart] in H |- *.
  destruct (sp1 c1).
  { apply L in H. cbn [length] in H. lia. }
  destruct p as [|c2 p]; [reflexivity|].
  cbn [app] in H.
  destruct (sp2 c1 c2).
  { apply L in H. cbn [length] in H. lia. }
  destruct p as [|c3 p]; [reflexivity|].
  cbn [app] in H.
  destruct (sp3 c1 c2 c3); [|reflexivity].
  apply L in H. cbn [length] in H. lia.
Qed.

(** Trimming on the right keeps a prefix. *)
Lemma TrimRightSpace_prefix s : exists q, s = TrimRightSpace s ++ q.
Proof.
  unfold TrimRightSpace.
  destruct (trimStart_suffix asciiSpace (fun c2 c1 => isSpace2 c1 c2)
              (fun c3 c2 c1 => isSpace3 c1 c2 c3) (rev s)) as [p Hp].
  exists (rev p). rewrite <- rev_app_distr, <- Hp, rev_involutive.
  reflexivity.
Qed.

(** A trimmed line is its own trimmed form. *)
Lemma TrimSpace_idem s : TrimSpace (TrimSpace s) = TrimSpace s.
Proof.
  unfold TrimSpace at 1 2.
  assert (E : TrimLeftSpace (TrimRightSpace (TrimLeftSpace s))
              = TrimRightSpace (TrimLeftSpace s)).
  { destruct (TrimRightSpace_prefix (TrimLeftSpace s)) as [q Hq].
    apply (trimStart_prefix_fixed _ _ _ _ q). rewrite <- Hq.
    apply trimStart_idem. }
  unfold TrimSpace. rewrite E. apply TrimRightSpace_idem.
Qed.

(** X8. White space at the start and at the end of a line is of no account:
    trimming every line of the input changes no result of any call. *)
Theorem Reads_ignore_surrounding_space
    (f : error) (ls : list bytes) (t : bytes) (n : nat) :
  Forall (fun l => ~ In newline l) ls ->
  Reads n (NewReader {| pending := unlines ls ++ t; final := f |}) =
  Reads n (NewReader {| pending := unlines (map TrimSpace ls) ++ t;
                        final := f |}).
Proof.
  intros H.
  change (Reads n (reading f (unlines ls ++ t) None) =
          Reads n (reading f (unlines (map TrimSpace ls) ++ t) None)).
  generalize (@None Record_) as rc. revert n.
  induction H as [|l ls Hl _ IH]; intros n rc; [reflexivity|].
  cbn [map]. rewrite !unlines_cons.
  apply Reads_line_congr.
  - exact Hl.
  - intros F. apply Hl. apply TrimSpace_incl. exact F.
  - symmetry. apply TrimSpace_idem.
  - intros rc' n'. apply IH.
Qed.

Lemma Reads_ignore_surrounding_space_witness :
  Reads 3 (NewReader (strings_NewReader
                        (text ["  >Seq1 "; " AAA"; "BBB  "]))) =
  Reads 3 (NewReader (strings_NewReader (text [">Seq1"; "AAA"; "BBB"]))).
Proof.
  apply (Reads_ignore_surrounding_space io_EOF
           [bs "  >Seq1 "; bs " AAA"; bs "BBB  "] [] 3).
  repeat constructor; simpl; intuition discriminate.
Defined.

(** ** The end of the input without a line-break *)

Lemma Reads_blocks_unterminated blocks t : forall ls x n,
  wf_body ls -> Forall wf_block blocks ->
  ~ In newline t -> TrimSpace t = t -> isHeader t = false ->
  Reads n (reading io_EOF (unlines ls ++ flat_map renderBlock blocks ++ t)
             (Some x)) =
  Reads n (reading io_EOF
             (unlines ls ++ flat_map renderBlock blocks ++ t ++ [newline])
             (Some x)).
Proof.
  induction blocks as [|b bs IH]; intros ls x n Hls Hbs Ht Htrim Hh.
  - cbn [flat_map app]. destruct n as [|n]; [reflexivity|].
    apply Reads_same_first. apply Read_unterminated_clean; assumption.
  - inversion Hbs as [|? ? Hb Hbs']; subst.
    destruct n as [|n]; [reflexivity|].
    cbn [Reads flat_map]. rewrite <- !app_assoc.
    rewrite !Read_body_block by assumption.
    rewrite IH by (try apply Hb; assumption). reflexivity.
Qed.

(** X9. A last line without its line-break reads like one with it, when the
    input has a header line and that last line is a data line with no white
    space around it: all the calls give the same results. *)
Theorem Reads_missing_final_newline
    (blanks : list bytes) (b : block) (blocks : list block) (t : bytes)
    (n : nat) :
  wf_blanks blanks -> Forall wf_block (b :: blocks) ->
  ~ In newline t -> TrimSpace t = t -> isHeader t = false ->
  Reads n (NewReader (strings_NewReader (render blanks (b :: blocks) ++ t))) =
  Reads n (NewReader (strings_NewReader
                        (render blanks (b :: blocks) ++ t ++ [newline]))).
Proof.
  intros Hbl Hbs Ht Htrim Hh. rewrite !NewReader_reading.
  inversion Hbs as [|? ? (Hl & Hhd & Hls) Hbs']; subst.
  destruct n as [|n]; [reflexivity|].
  pose proof (Reads_blocks_unterminated blocks t (body b)
                {| Header := headerName (head b); Sequence := [] |} (S n)
                Hls Hbs' Ht Htrim Hh) as E.
  unfold render. cbn [flat_map]. unfold renderBlock at 1 3.
  rewrite <- !app_assoc.
  transitivity
    (Reads (S n)
       (reading io_EOF (unlines (body b) ++ flat_map renderBlock blocks ++ t)
          (Some {| Header := headerName (head b); Sequence := [] |}))).
  - apply Reads_same_first. rewrite Read_blanks by exact Hbl.
    rewrite unlines_cons.
    apply Read_header_first; assumption.
  - rewrite E. symmetry.
    apply Reads_same_first. rewrite Read_blanks by exact Hbl.
    rewrite unlines_cons.
    apply Read_header_first; assumption.
Qed.

Lemma Reads_missing_final_newline_witness :
  Reads 3 (NewReader (strings_NewReader
                        (text [">Seq1"; "AAA"; ">Seq2"; "CCC"] ++ bs "DDD"))) =
  Reads 3 (NewReader (strings_NewReader
                        (text [">Seq1"; "AAA"; ">Seq2"; "CCC"; "DDD"]))).
Proof.
  apply (Reads_missing_final_newline []
           {| head := bs ">Seq1"; body := [bs "AAA"] |}
           [ {| head := bs ">Seq2"; body := [bs "CCC"] |} ] (bs "DDD") 3).
  - constructor.
  - repeat constructor; simpl; intuition discriminate.
  - simpl; intuition discriminate.
  - reflexivity.
  - reflexivity.
Defined.

(** ** A stream that fails *)

Lemma Reads_step n rd rd' rc e :
  Read rd = (rd', Return rc e) -> Reads (S n) rd = Return rc e :: Reads n rd'.
Proof. intros H. cbn [Reads]. rewrite H. reflexivity. Qed.

Lemma Reads_blocks_failure f blocks t : forall ls x,
  f <> io_EOF -> wf_body ls -> Forall wf_block blocks -> ~ In newline t ->
  Reads (S (length blocks))
    (reading f (unlines ls ++ flat_map renderBlock blocks ++ t) (Some x)) =
  map returned
    (removelast (appendSeq x (concat (map TrimSpace ls))
                   :: map recordOf blocks))
    ++ [failed f].
Proof.
  induction blocks as [|b bs IH]; intros ls x Hf Hls Hbs Ht.
  - cbn [length flat_map app Reads]. rewrite Read_body by exact Hls.
    rewrite Read_failure by assumption. reflexivity.
  - inversion Hbs as [|? ? Hb Hbs']; subst.
    cbn [length flat_map]. rewrite <- app_assoc.
    rewrite (Reads_step _ _ _ _ _ (Read_body_block f ls b _ x Hls Hb)).
    rewrite IH by (try apply Hb; assumption).
    reflexivity.
Qed.

(** X10. When the stream ends in an error other than [io.EOF], the records
    sealed by a later header line are returned as usual, then the error is
    passed on with no record: the record in progress is not handed out. *)
Theorem Reads_stream_failure
    (f : error) (blanks : list bytes) (b : block) (blocks : list block)
    (t : bytes) :
  f <> io_EOF -> wf_blanks blanks -> Forall wf_block (b :: blocks) ->
  ~ In newline t ->
  Reads (S (length blocks))
    (NewReader {| pending := render blanks (b :: blocks) ++ t; final := f |}) =
  map returned (removelast (map recordOf (b :: blocks))) ++ [failed f].
Proof.
  intros Hf Hbl Hbs Ht.
  inversion Hbs as [|? ? (Hl & Hhd & Hls) Hbs']; subst.
  change (NewReader {| pending := render blanks (b :: blocks) ++ t;
                       final := f |})
    with (reading f (render blanks (b :: blocks) ++ t) None).
  transitivity
    (Reads (S (length blocks))
       (reading f (unlines (body b) ++ flat_map renderBlock blocks ++ t)
          (Some {| Header := headerName (head b); Sequence := [] |}))).
  - apply Reads_same_first. unfold render. cbn [flat_map].
    unfold renderBlock at 1. rewrite <- !app_assoc.
    rewrite Read_blanks by exact Hbl.
    rewrite unlines_cons.
    apply Read_header_first; assumption.
  - rewrite Reads_blocks_failure by assumption. reflexivity.
Qed.

Lemma Reads_stream_failure_witness :
  Reads 2 (NewReader {| pending := text [">Seq1"; "AAA"; ">Seq2"; "CCC"];
                        final := io_failure "unexpected EOF" |}) =
  [returned {| Header := bs "Seq1"; Sequence := bs "AAA" |};
   failed (io_failure "unexpected EOF")].
Proof.
  apply (Reads_stream_failure (io_failure "unexpected EOF") []
           {| head := bs ">Seq1"; body := [bs "AAA"] |}
           [ {| head := bs ">Seq2"; body := [bs "CCC"] |} ] []).
  - discriminate.
  - constructor.
  - repeat constructor; simpl; intuition discriminate.
  - intros F; exact F.
Defined.

(** * The first call, by the shape of the input *)

(** Either every line is blank, or there is a first line that is not. *)
Lemma first_nonblank ls :
  Forall (fun l => isBlank l = true) ls
  \/ exists pre l post,
       ls = pre ++ l :: post
       /\ Forall (fun l => isBlank l = true) pre /\ isBlank l = false.
Proof.
  induction ls as [|l ls IH]; [left; constructor|].
  destruct (isBlank l) eqn:E.
  - destruct IH as [IH|(pre & l' & post & -> & Hpre & Hl)].
    + left. constructor; assumption.
    + right. exists (l :: pre), l', post. repeat split; auto.
  - right. exists [], l, ls. repeat split; auto.
Qed.

Lemma not_blank_kind l :
  isBlank l = false ->
  (isHeader l = true /\ isData l = false)
  \/ (isHeader l = false /\ isData l = true).
Proof.
  unfold isBlank, isHeader, isData.
  destruct (TrimSpace l) as [|c t]; [discriminate|]. intros _.
  destruct (Byte.eqb c marker); auto.
Qed.

(** The first call on an input all of whose lines are blank. *)
Lemma Read_all_blank s :
  Forall (fun l => isBlank l = true) (lines s) ->
  snd (Read (NewReader (strings_NewReader s))) =
  match unterminated s with
  | [] => Return None None
  | _ :: _ => Panic
  end.
Proof.
  intros Hb. destruct (splitLines_spec s) as (Hs & Hls & Ht).
  rewrite Hs at 1. rewrite NewReader_reading.
  rewrite Read_blanks.
  - rewrite Read_tail by exact Ht. destruct (unterminated s); reflexivity.
  - unfold wf_blanks. rewrite Forall_forall in *. auto.
Qed.

(** The first call on an input with a line that is not blank: a record, or
    the format error when the first such line is a data line. *)
Lemma Read_some_line s pre l post :
  lines s = pre ++ l :: post ->
  Forall (fun l => isBlank l = true) pre -> isBlank l = false ->
  (isHeader l = true
   /\ exists y, snd (Read (NewReader (strings_NewReader s))) = returned y)
  \/ (isData l = true
      /\ snd (Read (NewReader (strings_NewReader s))) = failed format_error).
Proof.
  intros El Hpre Hl. destruct (splitLines_spec s) as (Hs & Hls & Ht).
  rewrite El in Hs, Hls.
  apply Forall_app in Hls. destruct Hls as [Hls1 Hls2].
  apply Forall_cons_iff in Hls2. destruct Hls2 as [Hnl _].
  assert (Hw : wf_blanks pre).
  { unfold wf_blanks. rewrite Forall_forall in *. auto. }
  assert (E : NewReader (strings_NewReader s)
              = reading io_EOF
                  (unlines pre ++ l ++ newline :: unlines post ++ unterminated s)
                  None).
  { rewrite Hs at 1. rewrite unlines_app, <- app_assoc, unlines_cons.
    reflexivity. }
  rewrite E. rewrite Read_blanks by exact Hw.
  destruct (not_blank_kind l Hl) as [[Hh _]|[_ Hd]].
  - left. split; [exact Hh|].
    rewrite Read_header_first by assumption.
    destruct (Read_in_progress_aux
                (reading io_EOF (unlines post ++ unterminated s)
                   (Some {| Header := headerName l; Sequence := [] |}))
                _ eq_refl eq_refl) as [_ [R|[_ R]]].
    + exact R.
    + exfalso. apply R. reflexivity.
  - right. split; [exact Hd|].
    rewrite Read_data_first by assumption. reflexivity.
Qed.

(** X11. The first call of [Read] panics exactly when the input holds no line
    that is not blank and ends in bytes without a line-break. *)
Theorem Read_panics_iff (s : bytes) :
  snd (Read (NewReader (strings_NewReader s))) = Panic
  <-> Forall (fun l => isBlank l = true) (lines s) /\ unterminated s <> [].
Proof.
  split.
  - intros H. destruct (first_nonblank (lines s))
      as [Hb|(pre & l & post & El & Hpre & Hl)].
    + split; [exact Hb|]. rewrite (Read_all_blank s Hb) in H.
      destruct (unterminated s); [discriminate H | discriminate].
    + destruct (Read_some_line s pre l post El Hpre Hl)
        as [[_ [y R]]|[_ R]]; rewrite R in H; discriminate H.
  - intros [Hb Ht]. rewrite (Read_all_blank s Hb).
    destruct (unterminated s); [contradiction | reflexivity].
Qed.

(** X12. The first call of [Read] returns a nil record with a nil error exactly
    when the input is empty or made of blank lines, each ended by a
    line-break. *)
Theorem Read_nil_nil_iff (s : bytes) :
  snd (Read (NewReader (strings_NewReader s))) = Return None None
  <-> Forall (fun l => isBlank l = true) (lines s) /\ unterminated s = [].
Proof.
  split.
  - intros H. destruct (first_nonblank (lines s))
      as [Hb|(pre & l & post & El & Hpre & Hl)].
    + split; [exact Hb|]. rewrite (Read_all_blank s Hb) in H.
      destruct (unterminated s); [reflexivity | discriminate H].
    + destruct (Read_some_line s pre l post El Hpre Hl)
        as [[_ [y R]]|[_ R]]; rewrite R in H; discriminate H.
  - intros [Hb Ht]. rewrite (Read_all_blank s Hb), Ht. reflexivity.
Qed.

(** X13. The first call of [Read] returns the format error exactly when the
    first line that is not blank is a data line. *)
Theorem Read_format_error_iff (s : bytes) :
  snd (Read (NewReader (strings_NewReader s))) = failed format_error
  <-> exists pre l post,
        lines s = pre ++ l :: post
        /\ Forall (fun l => isBlank l = true) pre /\ isData l = true.
Proof.
  split.
  - intros H. destruct (first_nonblank (lines s))
      as [Hb|(pre & l & post & El & Hpre & Hl)].
    + rewrite (Read_all_blank s Hb) in H.
      destruct (unterminated s); discriminate H.
    + destruct (Read_some_line s pre l post El Hpre Hl)
        as [[_ [y R]]|[Hd R]].
      * rewrite R in H. discriminate H.
      * exists pre, l, post. auto.
  - intros (pre & l & post & El & Hpre & Hd).
    assert (Hl : isBlank l = false).
    { unfold isBlank, isData in *. destruct (TrimSpace l);
        [discriminate | reflexivity]. }
    destruct (Read_some_line s pre l post El Hpre Hl)
      as [[Hh _]|[_ R]]; [|exact R].
    unfold isHeader, isData in *. destruct (TrimSpace l) as [|c t];
      [discriminate|]. rewrite Hh in Hd. discriminate.
Qed.

(** * Further properties of the writer *)

(** ** A sink that runs out of room *)

Lemma sink_after_cons pre c out m n0 :
  sink_after pre (c :: out) (S m) n0 = sink_after (pre ++ [c]) out m (n0 + 1).
Proof.
  unfold sink_after. cbn [length Nat.leb Nat.sub firstn].
  rewrite <- !app_assoc. cbn [app].
  destruct (length out <=? m)%nat; f_equal; f_equal; lia.
Qed.

Lemma sink_after_full pre c out n0 :
  sink_after pre (c :: out) 0 n0 =
  (limited pre 0, WReturn n0 (Some short_write)).
Proof.
  unfold sink_after. cbn [length Nat.leb firstn].
  rewrite app_nil_r, Z.add_0_r. reflexivity.
Qed.

Lemma io_Write_limited_byte pre m c :
  io_Write (limited pre (S m)) [c] = (limited (pre ++ [c]) m, 1%Z, None).
Proof.
  unfold io_Write, limited. cbn. rewrite Nat.sub_0_r. reflexivity.
Qed.

Lemma io_Write_limited_full pre c :
  io_Write (limited pre 0) [c] = (limited pre 0, 0%Z, Some short_write).
Proof.
  unfold io_Write, limited. cbn. rewrite app_nil_r. reflexivity.
Qed.

(** The loop of [Write] on a sink with room for [m] bytes. *)
Lemma Write_loop_limited wd rest : forall j pre m n,
  wd <> 0%Z ->
  Write_loop wd (Z.of_nat j) rest (limited pre m) n =
  sink_after pre (wrap_from wd j rest ++ [newline]) m n.
Proof.
  induction rest as [|c rest IH]; intros j pre m n Hwd.
  - cbn [Write_loop wrap_from length seq combine flat_map app].
    destruct m as [|m].
    + rewrite io_Write_limited_full, sink_after_full, Z.add_0_r. reflexivity.
    + rewrite io_Write_limited_byte, sink_after_cons.
      unfold sink_after. cbn. rewrite app_nil_r, Z.add_0_r, Nat.sub_0_r.
      reflexivity.
  - cbn [Write_loop].
    rewrite (proj2 (Z.eqb_neq wd 0) Hwd).
    rewrite (rem_zero_mod_zero _ _ Hwd), wrap_from_cons.
    replace (Z.of_nat j + 1)%Z with (Z.of_nat (S j)) by lia.
    destruct (Z.of_nat j mod wd =? 0)%Z; cbn [app].
    + destruct m as [|m].
      * rewrite io_Write_limited_full, sink_after_full, Z.add_0_r.
        reflexivity.
      * rewrite io_Write_limited_byte, sink_after_cons.
        destruct m as [|m].
        -- rewrite io_Write_limited_full, sink_after_full, Z.add_0_r.
           reflexivity.
        -- rewrite io_Write_limited_byte, sink_after_cons.
           apply IH. exact Hwd.
    + destruct m as [|m].
      * rewrite io_Write_limited_full, sink_after_full, Z.add_0_r.
        reflexivity.
      * rewrite io_Write_limited_byte, sink_after_cons.
        apply IH. exact Hwd.
Qed.

(** [Write] on a sink with room for [m] bytes. *)
Lemma Write_limited {A : Type} `{SequenceI A} pre m width0 (s : A) :
  let wd := width (NewWriter (limited pre m) width0) in
  Write (NewWriter (limited pre m) width0) s =
  ({| w := fst (sink_after pre (encoding wd s) m 0); width := wd |},
   snd (sink_after pre (encoding wd s) m 0)).
Proof.
  intros wd. unfold Write. cbn [w NewWriter]. fold wd.
  unfold encoding.
  set (hdr := marker :: Name s).
  change (marker :: Name s ++ wrap_spec wd (Seq s) ++ [newline])
    with (hdr ++ wrap_spec wd (Seq s) ++ [newline]).
  unfold io_Write at 1. cbn [room limited written].
  destruct (length hdr <=? m)%nat eqn:E.
  - apply Nat.leb_le in E.
    change 0%Z with (Z.of_nat 0) at 1.
    change {| written := pre ++ hdr; room := Some (m - length hdr)%nat |}
      with (limited (pre ++ hdr) (m - length hdr)).
    rewrite (Write_loop_limited wd (Seq s) 0 _ _ _
               (NewWriter_width_nonzero (limited pre m) width0)).
    fold (wrap_spec wd (Seq s)).
    unfold sink_after. rewrite !length_app.
    destruct (length (wrap_spec wd (Seq s)) + length [newline]
              <=? m - length hdr)%nat eqn:E2.
    + apply Nat.leb_le in E2.
      rewrite (proj2 (Nat.leb_le _ _)) by lia.
      cbn [fst snd]. rewrite <- !app_assoc.
      match goal with
      | |- (_, WReturn ?a None) = (_, WReturn ?b None) =>
          replace a with b by lia
      end.
      match goal with
      | |- ({| w := limited _ ?a; width := _ |}, _)
           = ({| w := limited _ ?b; width := _ |}, _) =>
          replace a with b by lia
      end.
      reflexivity.
    + apply Nat.leb_gt in E2.
      rewrite (proj2 (Nat.leb_gt _ _)) by lia.
      cbn [fst snd]. rewrite (firstn_app m hdr).
      rewrite (firstn_all2 hdr) by lia. rewrite <- app_assoc.
      match goal with
      | |- (_, WReturn ?a _) = (_, WReturn ?b _) => replace a with b by lia
      end.
      reflexivity.
  - apply Nat.leb_gt in E.
    unfold sink_after. rewrite !length_app.
    rewrite (proj2 (Nat.leb_gt _ _)) by lia.
    cbn [fst snd]. rewrite (firstn_app m hdr).
    replace (m - length hdr)%nat with 0%nat by lia.
    cbn [firstn]. rewrite app_nil_r. reflexivity.
Qed.

(** X14. The count that [Write] returns is the number of bytes the sink has
    taken, whatever the sink and the width; these bytes are the first ones
    of the encoding, all of it when there is no error; [Write] on a writer
    made by [NewWriter] does not panic. *)
Theorem Write_count_accurate {A : Type} `{SequenceI A}
    (k : io_Writer) (width0 : Z) (s : A) :
  let wr := NewWriter k width0 in
  exists added e,
    snd (Write wr s) = WReturn (Z.of_nat (length added)) e
    /\ written (w (fst (Write wr s))) = written k ++ added
    /\ width (fst (Write wr s)) = width wr
    /\ added = firstn (length added) (encoding (width wr) s)
    /\ (e = None -> added = encoding (width wr) s).
Proof.
  intros wr. subst wr. destruct k as [pre [m|]].
  - change {| written := pre; room := Some m |} with (limited pre m).
    pose proof (Write_limited pre m width0 s) as E. cbv zeta in E.
    rewrite E. clear E. cbn [fst snd w width written].
    set (wd := width (NewWriter (limited pre m) width0)).
    change (width (NewWriter (limited pre m) width0)) with wd.
    unfold sink_after.
    destruct (length (encoding wd s) <=? m)%nat eqn:El.
    + exists (encoding wd s), None. cbn [fst snd written limited].
      rewrite Z.add_0_l, firstn_all. auto.
    + apply Nat.leb_gt in El.
      exists (firstn m (encoding wd s)), (Some short_write).
      cbn [fst snd written limited].
      rewrite length_firstn, Nat.min_l by lia.
      rewrite Z.add_0_l. repeat split; try reflexivity. discriminate.
  - change {| written := pre; room := None |} with (buffer pre).
    pose proof (Write_buffer pre width0 s) as E. cbv zeta in E.
    rewrite E. clear E. cbn [fst snd w width written buffer].
    exists (encoding (width (NewWriter (buffer pre) width0)) s), None.
    rewrite firstn_all. unfold encoding. auto.
Qed.

(** X15. On a sink with room for fewer bytes than the encoding has, [Write]
    stops at the first write that does not fit: the sink holds the first
    [m] bytes of the encoding, and [Write] returns [m] and the error. *)
Theorem Write_short_sink {A : Type} `{SequenceI A}
    (pre : bytes) (m : nat) (width0 : Z) (s : A) :
  let wr := NewWriter (limited pre m) width0 in
  (m < length (encoding (width wr) s))%nat ->
  Write wr s =
  ({| w := limited (pre ++ firstn m (encoding (width wr) s)) 0;
      width := width wr |},
   WReturn (Z.of_nat m) (Some short_write)).
Proof.
  intros wr Hm. subst wr.
  pose proof (Write_limited pre m width0 s) as E. cbv zeta in E.
  rewrite E. clear E. unfold sink_after.
  rewrite (proj2 (Nat.leb_gt _ _)) by exact Hm.
  cbn [fst snd]. rewrite Z.add_0_l. reflexivity.
Qed.

Lemma Write_short_sink_witness :
  Write (NewWriter (limited [] 8) 4) Seq1 =
  ({| w := limited (bs ">Seq1" ++ newline :: bs "AA") 0; width := 4 |},
   WReturn 8 (Some short_write)).
Proof.
  refine (Write_short_sink [] 8 4 Seq1 _). simpl. lia.
Defined.

(** ** The lines of the output *)

Lemma wrap_from_abs wd j data :
  wd <> 0%Z -> wrap_from wd j data = wrap_from (Z.abs wd) j data.
Proof.
  intros Hwd. unfold wrap_from. apply flat_map_ext. intros [i c].
  assert (E : (Z.of_nat i mod wd =? 0)%Z = (Z.of_nat i mod Z.abs wd =? 0)%Z).
  { apply eq_true_iff_eq. rewrite !Z.eqb_eq.
    rewrite (Z.mod_divide _ wd Hwd).
    rewrite (Z.mod_divide _ (Z.abs wd)) by lia.
    symmetry. apply Z.divide_abs_l. }
  rewrite E. reflexivity.
Qed.

Lemma wrap_from_app wd a : forall j b,
  wrap_from wd j (a ++ b) = wrap_from wd j a ++ wrap_from wd (j + length a) b.
Proof.
  induction a as [|c a IH]; intros j b.
  - cbn [app length]. rewrite Nat.add_0_r. reflexivity.
  - cbn [app]. rewrite !wrap_from_cons, IH. cbn [length].
    rewrite <- app_assoc, Nat.add_succ_r. reflexivity.
Qed.

Lemma wrap_from_shift n data : forall j,
  (0 < n)%nat ->
  wrap_from (Z.of_nat n) (j + n) data = wrap_from (Z.of_nat n) j data.
Proof.
  induction data as [|c data IH]; intros j Hn; [reflexivity|].
  rewrite !wrap_from_cons.
  change (S (j + n)) with (S j + n)%nat. rewrite IH by exact Hn.
  rewrite Nat2Z.inj_add.
  replace (Z.of_nat j + Z.of_nat n)%Z with (Z.of_nat j + 1 * Z.of_nat n)%Z
    by lia.
  rewrite Z.mod_add by lia. reflexivity.
Qed.

(** The first line of the wrapped data, and the rest. *)
Lemma wrap_from_chunk n c data :
  (0 < n)%nat ->
  wrap_from (Z.of_nat n) 0 (c :: data) =
  newline :: firstn n (c :: data)
    ++ wrap_from (Z.of_nat n) 0 (skipn n (c :: data)).
Proof.
  intros Hn.
  rewrite <- (firstn_skipn n (c :: data)) at 1.
  rewrite wrap_from_app. cbn [Nat.add].
  assert (Hf : wrap_from (Z.of_nat n) 0 (firstn n (c :: data))
               = newline :: firstn n (c :: data)).
  { pose proof (wrap_spec_wide (Z.of_nat n) (firstn n (c :: data))) as W.
    unfold wrap_spec in W. rewrite W.
    - destruct n as [|n]; [lia|]. reflexivity.
    - lia.
    - rewrite length_firstn. lia. }
  rewrite Hf. cbn [app]. f_equal. f_equal.
  destruct (Nat.le_gt_cases n (length (c :: data))) as [L|L].
  - rewrite length_firstn, Nat.min_l by exact L.
    apply (wrap_from_shift n _ 0). exact Hn.
  - rewrite skipn_all2 by lia. reflexivity.
Qed.

Lemma chunks_fuel_wrap n fuel : forall data,
  (0 < n)%nat -> (length data <= fuel)%nat ->
  flat_map (fun l => newline :: l) (chunks_fuel fuel n data)
  = wrap_from (Z.of_nat n) 0 data.
Proof.
  induction fuel as [|fuel IH]; intros data Hn Hf.
  - destruct data; [reflexivity | simpl in Hf; lia].
  - destruct data as [|c data]; [reflexivity|].
    cbn [chunks_fuel flat_map]. rewrite wrap_from_chunk by exact Hn.
    cbn [app]. f_equal. f_equal. apply IH; [exact Hn|].
    rewrite length_skipn. cbn [length] in *. lia.
Qed.

Lemma flat_map_newline_unlines ls :
  flat_map (fun l => newline :: l) ls ++ [newline] = newline :: unlines ls.
Proof.
  induction ls as [|l ls IH]; [reflexivity|].
  cbn [flat_map]. rewrite <- app_assoc. cbn [app]. rewrite IH.
  unfold unlines. cbn [flat_map]. rewrite <- app_assoc. reflexivity.
Qed.

(** The encoding, line by line. *)
Lemma encoding_lines {A : Type} `{SequenceI A} wd (s : A) :
  wd <> 0%Z ->
  encoding wd s = unlines ((marker :: Name s) :: chunks (Z.abs_nat wd) (Seq s)).
Proof.
  intros Hwd. unfold encoding, wrap_spec.
  rewrite (wrap_from_abs wd 0 _ Hwd).
  replace (Z.abs wd) with (Z.of_nat (Z.abs_nat wd)) by lia.
  unfold chunks.
  rewrite <- (chunks_fuel_wrap (Z.abs_nat wd) (length (Seq s)) (Seq s))
    by lia.
  rewrite flat_map_newline_unlines.
  unfold unlines at 2. cbn [flat_map]. rewrite <- app_assoc. reflexivity.
Qed.

Lemma chunks_fuel_facts n fuel : forall data,
  (0 < n)%nat -> (length data <= fuel)%nat ->
  concat (chunks_fuel fuel n data) = data
  /\ Forall (fun l => (0 < length l <= n)%nat) (chunks_fuel fuel n data)
  /\ Forall (fun l => length l = n) (removelast (chunks_fuel fuel n data)).
Proof.
  induction fuel as [|fuel IH]; intros data Hn Hf.
  - destruct data; [|simpl in Hf; lia]. cbn. auto.
  - destruct data as [|c data]; [cbn; auto|].
    cbn [chunks_fuel].
    assert (Hs : (length (skipn n (c :: data)) <= fuel)%nat).
    { rewrite length_skipn. cbn [length] in *. lia. }
    destruct (IH (skipn n (c :: data)) Hn Hs) as (I1 & I2 & I3).
    split; [|split].
    + cbn [concat]. rewrite I1. apply firstn_skipn.
    + constructor; [|exact I2]. rewrite length_firstn. cbn [length]. lia.
    + remember (chunks_fuel fuel n (skipn n (c :: data))) as rest eqn:Er.
      destruct rest as [|l rest]; [constructor|].
      change (removelast (firstn n (c :: data) :: l :: rest))
        with (firstn n (c :: data) :: removelast (l :: rest)).
      constructor; [|exact I3].
      rewrite length_firstn. apply Nat.min_l.
      destruct (Nat.le_gt_cases n (length (c :: data))) as [L|L]; [exact L|].
      rewrite skipn_all2 in Er by lia.
      destruct fuel; discriminate Er.
Qed.

(** X16. What [Write] emits is the header line and then the data cut into lines
    of exactly [|width|] residues each, the last one possibly shorter and
    none empty, every line ended by a line-break; a negative width counts
    as its absolute value. *)
Theorem Write_lines {A : Type} `{SequenceI A}
    (pre : bytes) (width0 : Z) (s : A) :
  let wr := NewWriter (buffer pre) width0 in
  let n := Z.abs_nat (width wr) in
  written (w (fst (Write wr s)))
  = pre ++ unlines ((marker :: Name s) :: chunks n (Seq s))
  /\ concat (chunks n (Seq s)) = Seq s
  /\ Forall (fun l => (0 < length l <= n)%nat) (chunks n (Seq s))
  /\ Forall (fun l => length l = n) (removelast (chunks n (Seq s))).
Proof.
  intros wr n.
  pose proof (NewWriter_width_nonzero (buffer pre) width0) as Hwd.
  fold wr in Hwd.
  split.
  - pose proof (Write_buffer pre width0 s) as E. cbv zeta in E.
    fold wr in E. rewrite E. cbn [fst w written buffer].
    fold (encoding (width wr) s). rewrite (encoding_lines _ _ Hwd).
    reflexivity.
  - apply chunks_fuel_facts; [|reflexivity]. subst n. lia.
Qed.

(** ** Record after record *)

Lemma WriteAll_buffer {A : Type} `{SequenceI A}
    (width0 : Z) (recs : list A) (pre : bytes) (total : Z) :
  let wd := width (NewWriter (buffer pre) width0) in
  let out := flat_map (encoding wd) recs in
  WriteAll (NewWriter (buffer pre) width0) recs total =
  ({| w := buffer (pre ++ out); width := wd |},
   WReturn (total + Z.of_nat (length out)) None).
Proof.
  cbv zeta. revert pre total.
  induction recs as [|s recs IH]; intros pre total.
  - cbn [WriteAll flat_map length]. rewrite app_nil_r, Z.add_0_r.
    reflexivity.
  - cbn [WriteAll flat_map].
    pose proof (Write_buffer pre width0 s) as E. cbv zeta in E.
    rewrite E. clear E.
    set (wd := width (NewWriter (buffer pre) width0)).
    fold (encoding wd s).
    change {| w := buffer (pre ++ encoding wd s); width := wd |}
      with (NewWriter (buffer (pre ++ encoding wd s)) width0).
    rewrite IH.
    change (width (NewWriter (buffer (pre ++ encoding wd s)) width0)) with wd.
    rewrite <- app_assoc, length_app, Nat2Z.inj_add, Z.add_assoc.
    reflexivity.
Qed.

(** X17. Writing the records one after the other to a sink that takes every
    byte puts their encodings one after the other, with nothing between
    them, and the counts add up to the number of bytes written. *)
Theorem WriteAll_concat {A : Type} `{SequenceI A}
    (width0 : Z) (recs : list A) (pre : bytes) (total : Z) :
  let wd := width (NewWriter (buffer pre) width0) in
  let out := flat_map (encoding wd) recs in
  WriteAll (NewWriter (buffer pre) width0) recs total =
  ({| w := buffer (pre ++ out); width := wd |},
   WReturn (total + Z.of_nat (length out)) None).
Proof. exact (WriteAll_buffer width0 recs pre total). Qed.

(** ** Writing at any width and reading back *)

Lemma plainb_low c : plainb c = true -> low c.
Proof.
  unfold plainb, low. rewrite !andb_true_iff, N.ltb_lt. tauto.
Qed.

Lemma plainb_not_space c : plainb c = true -> asciiSpace c = false.
Proof.
  unfold plainb. rewrite !andb_true_iff, !negb_true_iff. tauto.
Qed.

Lemma plainb_not_marker c : plainb c = true -> Byte.eqb c marker = false.
Proof.
  unfold plainb. rewrite !andb_true_iff, !negb_true_iff. tauto.
Qed.

Lemma plain_no_newline s : plain s -> ~ In newline s.
Proof.
  intros H F. unfold plain in H. rewrite Forall_forall in H.
  specialize (H _ F). discriminate H.
Qed.

(** Trimming leaves a plain line as it is. *)
Lemma TrimSpace_plain s : plain s -> TrimSpace s = s.
Proof.
  intros H. destruct s as [|c t]; [reflexivity|].
  unfold TrimSpace.
  assert (Hc : plainb c = true) by (inversion H; assumption).
  rewrite TrimLeftSpace_low_head
    by (apply plainb_low || apply plainb_not_space; exact Hc).
  unfold TrimRightSpace.
  assert (Hr : plain (rev (c :: t))) by (apply Forall_rev; exact H).
  destruct (rev (c :: t)) as [|d u] eqn:Er.
  - apply (f_equal (@length byte)) in Er. rewrite length_rev in Er.
    discriminate Er.
  - assert (Hd : plainb d = true) by (inversion Hr; assumption).
    rewrite (trimStart_low_head asciiSpace _ _ isSpace2_rev_high
               isSpace3_rev_high d u (plainb_low d Hd)
               (plainb_not_space d Hd)).
    rewrite <- Er. apply rev_involutive.
Qed.

Lemma plain_not_header s : plain s -> isHeader s = false.
Proof.
  intros H. unfold isHeader. rewrite (TrimSpace_plain s H).
  destruct s as [|c t]; [reflexivity|].
  apply plainb_not_marker. inversion H; assumption.
Qed.

Lemma chunks_fuel_plain n fuel : forall data,
  plain data -> Forall plain (chunks_fuel fuel n data).
Proof.
  induction fuel as [|fuel IH]; intros data H; [constructor|].
  destruct data as [|c data]; [constructor|].
  cbn [chunks_fuel].
  rewrite <- (firstn_skipn n (c :: data)) in H.
  apply Forall_app in H. destruct H as [H1 H2].
  constructor; [exact H1 | apply IH; exact H2].
Qed.

(** The block of a record with a clean name and plain data is well formed,
    and its record is the record. *)
Lemma blockAt_wf n rc :
  (0 < n)%nat -> clean_name (Header rc) -> plain (Sequence rc) ->
  wf_block (blockAt n rc) /\ recordOf (blockAt n rc) = rc.
Proof.
  intros Hn [Hc1 Hc2] Hp.
  pose proof (chunks_fuel_plain n (length (Sequence rc)) (Sequence rc) Hp)
    as Hch. fold (chunks n (Sequence rc)) in Hch.
  split.
  - unfold wf_block, blockAt. cbn [head body]. split; [|split].
    + intros [F|F]; [discriminate | exact (Hc1 F)].
    + unfold isHeader. rewrite (TrimSpace_marker_name _ Hc2). reflexivity.
    + unfold wf_body. rewrite Forall_forall in *. intros l Hl.
      split; [apply plain_no_newline | apply plain_not_header]; auto.
  - unfold recordOf, blockAt, headerName. cbn [head body].
    rewrite (TrimSpace_marker_name _ Hc2). cbn [tl].
    assert (Hm : map TrimSpace (chunks n (Sequence rc))
                 = chunks n (Sequence rc)).
    { rewrite <- (map_id (chunks n (Sequence rc))) at 2.
      apply map_ext_in. intros l Hl. apply TrimSpace_plain.
      rewrite Forall_forall in Hch. auto. }
    rewrite Hm.
    destruct (chunks_fuel_facts n (length (Sequence rc)) (Sequence rc) Hn
                (le_n _)) as (Hcat & _).
    fold (chunks n (Sequence rc)) in Hcat. rewrite Hcat.
    destruct rc. reflexivity.
Qed.

Lemma encodings_render wd (recs : list Record_) :
  wd <> 0%Z ->
  flat_map (encoding wd) recs
  = render [] (map (blockAt (Z.abs_nat wd)) recs).
Proof.
  intros Hwd. unfold render. cbn [unlines flat_map app].
  induction recs as [|rc recs IH]; [reflexivity|].
  cbn [flat_map map]. rewrite IH. f_equal.
  rewrite (encoding_lines wd rc Hwd). reflexivity.
Qed.

(** X18. Round trip at any width: records whose names hold no line-break and
    do not end in white space, and whose data are ASCII bytes other than
    white space and '>', written one after the other at any line width and
    read back, come out as they went in, in the same order; the reader
    does not panic on what the writer wrote. *)
Theorem roundtrip_any_width (width0 : Z) (recs : list Record_) (n : nat) :
  Forall (fun rc => clean_name (Header rc) /\ plain (Sequence rc)) recs ->
  (length recs < n)%nat ->
  let out := written (w (fst (WriteAll (NewWriter bytes_Buffer width0)
                                recs 0))) in
  records_of (Reads n (NewReader (strings_NewReader out))) = recs
  /\ ~ In Panic (Reads n (NewReader (strings_NewReader out))).
Proof.
  intros Hrecs Hn out. subst out.
  pose proof (WriteAll_buffer width0 recs [] 0) as E. cbv zeta in E.
  change (buffer []) with bytes_Buffer in E. rewrite E. clear E.
  cbn [fst w written buffer app].
  pose proof (NewWriter_width_nonzero bytes_Buffer width0) as Hwd.
  set (wd := width (NewWriter bytes_Buffer width0)) in *.
  rewrite (encodings_render wd recs Hwd).
  set (m := Z.abs_nat wd).
  assert (Hm : (0 < m)%nat) by (subst m; lia).
  assert (Hbs : Forall wf_block (map (blockAt m) recs)).
  { rewrite Forall_map. rewrite Forall_forall in *. intros rc Hrc.
    destruct (Hrecs rc Hrc) as [H1 H2].
    exact (proj1 (blockAt_wf m rc Hm H1 H2)). }
  assert (Hrec : map recordOf (map (blockAt m) recs) = recs).
  { rewrite map_map. rewrite <- (map_id recs) at 2.
    apply map_ext_in. intros rc Hrc. rewrite Forall_forall in Hrecs.
    destruct (Hrecs rc Hrc) as [H1 H2].
    exact (proj2 (blockAt_wf m rc Hm H1 H2)). }
  replace n with (S (length (map (blockAt m) recs))
                  + (n - S (length recs)))%nat
    by (rewrite length_map; lia).
  rewrite (Reads_render [] (map (blockAt m) recs) _ (Forall_nil _) Hbs).
  destruct (map (blockAt m) recs) as [|b bs] eqn:Eb.
  - destruct recs; [|discriminate Eb]. split.
    + cbn [records_of]. exact (records_of_returned [] _).
    + intros [F|F]; [discriminate|]. apply repeat_spec in F. discriminate.
  - split.
    + rewrite records_of_returned. exact Hrec.
    + intros F. apply in_app_or in F. destruct F as [F|F].
      * apply in_map_iff in F. destruct F as (? & F & _). discriminate.
      * apply repeat_spec in F. discriminate.
Qed.

Lemma roundtrip_any_width_witness :
  let recs := [ {| Header := bs "Seq1"; Sequence := bs "AAABBB" |};
                {| Header := bs "Seq2 x"; Sequence := bs "CCCDDDE" |} ] in
  let out := written (w (fst (WriteAll (NewWriter bytes_Buffer 2) recs 0))) in
  records_of (Reads 3 (NewReader (strings_NewReader out))) = recs
  /\ ~ In Panic (Reads 3 (NewReader (strings_NewReader out))).
Proof.
  apply (roundtrip_any_width 2
           [ {| Header := bs "Seq1"; Sequence := bs "AAABBB" |};
             {| Header := bs "Seq2 x"; Sequence := bs "CCCDDDE" |} ] 3).
  - repeat constructor; simpl; intuition discriminate.
  - simpl. lia.
Defined.
